(** * End-to-end encrypted sync transport of happy-coder

    A shallow embedding of
      - sources/sync/encryption/encryptor.ts: the three [Encryptor] /
        [Decryptor] classes (modules [SecretBoxEncryption], [BoxEncryption],
        [AES256Encryption] and [Encryptor]), and
      - the [ApiSocket] class that follows the entity types in
        sources/sync/storageTypes.ts (module [ApiSocket]),
    followed by the properties the specification states about them (modules
    [EncryptorSpec] and [ApiSocketSpec]).

    Conventions.
      - A JavaScript value of type [any] is a [JSValue]; [null] is [JNull].
      - A call that may throw, and an awaited promise that may reject, is a
        [Result]: [Ok v] or [Throw e].  [try_catch] is try { } catch { }.
      - Code imported from modules outside the two files (the libsodium
        wrappers, react-native-libsodium, rn-encryption, base64, JSON,
        ApiEncryption) is not re-implemented: each import is a type class
        whose operations are parameters of the development, free to throw.
        What a theorem needs from them is a stated hypothesis.
      - A method of [ApiSocket] is a function from the private fields to the
        way the call ends, the fields afterwards and the list of effects the
        call had on the outside: calls into socket.io, the console, and calls
        of registered callbacks.  A callback is known by its identity only;
        calling one is an effect, and it is taken to return normally without
        calling back into the object.
      - Left out, as no property below reads them: [AES256Encryption.encrypt],
        [ApiSocket.updateMachineMetadata] and [ApiSocket.request]. *)

From Stdlib Require Import Strings.Byte.
From stdpp Require Import gmap strings list.

Set Default Proof Using "Type".

(** ** JavaScript values, errors and results *)

#[warnings="-register-all"]
Inductive JSValue : Type :=
| JUndefined
| JNull
| JBool (b : bool)
| JNum (n : Z)
| JStr (s : string)
| JArr (items : list JSValue)
| JObj (fields : list (string * JSValue)).

(** A [Uint8Array]. *)
Abbreviation bytes := (list byte).

(** What a [throw] carries.  [TypeError_null p] is the TypeError the engine
    raises when property [p] is read from [null]. *)
Inductive JSError : Type :=
| Error (message : string)
| TypeError_null (property : string)
| SyntaxError (message : string)
| NativeError (message : string).

Inductive Result (A : Type) : Type :=
| Ok (a : A)
| Throw (e : JSError).
Arguments Ok {A} a.
Arguments Throw {A} e.

#[global] Instance result_ret : MRet Result := @Ok.
#[global] Instance result_bind : MBind Result :=
  fun A B f m => match m with Ok a => f a | Throw e => Throw e end.

Definition try_catch {A : Type} (body : Result A)
  (handler : JSError -> Result A) : Result A :=
  match body with
  | Ok a => Ok a
  | Throw e => handler e
  end.

(** [s || fallback] for a value that is a string, [null] or [undefined]. *)
Definition js_or_string (s : option string) (fallback : string) : string :=
  match s with
  | None => fallback
  | Some EmptyString => fallback
  | Some str => str
  end.

(** ** The imports of encryptor.ts *)

(** import { decryptBox, decryptSecretBox, encryptBox, encryptSecretBox }
    from "@/encryption/libsodium".  Encryption draws a fresh nonce, so it
    threads the state [Rng] of the random source; decryption does not. *)
Class Libsodium (Rng : Type) : Type := {
  encryptSecretBox : JSValue -> bytes -> Rng -> Result bytes * Rng;
  decryptSecretBox : bytes -> bytes -> Result JSValue;
  encryptBox : JSValue -> bytes -> Rng -> Result bytes * Rng;
  decryptBox : bytes -> bytes -> Result JSValue
}.

Record KeyPair : Type := { kp_privateKey : bytes; kp_publicKey : bytes }.

(** import sodium from 'react-native-libsodium'. *)
Class Sodium : Type := {
  crypto_box_seed_keypair : bytes -> Result KeyPair
}.

(** import { encodeBase64 } from "@/auth/base64". *)
Class Base64 : Type := {
  encodeBase64 : bytes -> Result string
}.

(** import * as crypto from 'rn-encryption'.  The awaited value is a string,
    or [null]/[undefined] ([None]). *)
Class RnEncryption : Type := {
  crypto_decryptAES : string -> string -> Result (option string)
}.

(** The global [JSON] object. *)
Class JSON : Type := {
  JSON_parse : string -> Result JSValue
}.

(** ** encryptor.ts *)

Module SecretBoxEncryption.
Section WithLibsodium.
Context {Rng : Type} {LS : Libsodium Rng}.

Record t : Type := { secretKey : bytes }.

Definition new (secretKey : bytes) : t := {| secretKey := secretKey |}.

(** The [for (const item of data)] loop of [decrypt]; [results] is the array
    being pushed to. *)
Fixpoint decrypt_loop (self : t) (data : list bytes) (results : list JSValue)
  : Result (list JSValue) :=
  match data with
  | [] => Ok results
  | item :: rest =>
      v ← decryptSecretBox item (secretKey self);
      decrypt_loop self rest (results ++ [v])
  end.

Definition decrypt (self : t) (data : list bytes) : Result (list JSValue) :=
  decrypt_loop self data [].

Fixpoint encrypt_loop (self : t) (data : list JSValue) (results : list bytes)
  (rng : Rng) : Result (list bytes) * Rng :=
  match data with
  | [] => (Ok results, rng)
  | item :: rest =>
      match encryptSecretBox item (secretKey self) rng with
      | (Ok c, rng') => encrypt_loop self rest (results ++ [c]) rng'
      | (Throw e, rng') => (Throw e, rng')
      end
  end.

Definition encrypt (self : t) (data : list JSValue) (rng : Rng)
  : Result (list bytes) * Rng :=
  encrypt_loop self data [] rng.

End WithLibsodium.
End SecretBoxEncryption.

Module BoxEncryption.
Section WithLibsodium.
Context {Rng : Type} {LS : Libsodium Rng} {SO : Sodium}.

Record t : Type := { privateKey : bytes; publicKey : bytes }.

(** The constructor: the key pair is derived from the seed. *)
Definition new (seed : bytes) : Result t :=
  keypair ← crypto_box_seed_keypair seed;
  mret {| privateKey := kp_privateKey keypair;
          publicKey := kp_publicKey keypair |}.

Fixpoint encrypt_loop (self : t) (data : list JSValue) (results : list bytes)
  (rng : Rng) : Result (list bytes) * Rng :=
  match data with
  | [] => (Ok results, rng)
  | item :: rest =>
      match encryptBox item (publicKey self) rng with
      | (Ok c, rng') => encrypt_loop self rest (results ++ [c]) rng'
      | (Throw e, rng') => (Throw e, rng')
      end
  end.

Definition encrypt (self : t) (data : list JSValue) (rng : Rng)
  : Result (list bytes) * Rng :=
  encrypt_loop self data [] rng.

Fixpoint decrypt_loop (self : t) (data : list bytes) (results : list JSValue)
  : Result (list JSValue) :=
  match data with
  | [] => Ok results
  | item :: rest =>
      v ← decryptBox item (privateKey self);
      decrypt_loop self rest (results ++ [v])
  end.

Definition decrypt (self : t) (data : list bytes) : Result (list JSValue) :=
  decrypt_loop self data [].

End WithLibsodium.
End BoxEncryption.

Module AES256Encryption.
Section WithCrypto.
Context {B64 : Base64} {RN : RnEncryption} {JS : JSON}.

Record t : Type := { secretKey : bytes; secretKeyB64 : string }.

Definition new (secretKey : bytes) : Result t :=
  b64 ← encodeBase64 secretKey;
  mret {| secretKey := secretKey; secretKeyB64 := b64 |}.

(** The body of the [try] block for one item: the new value of [results]. *)
Definition decrypt_try (self : t) (item : bytes) (results : list JSValue)
  : Result (list JSValue) :=
  b64 ← encodeBase64 item;
  decryptedString ← crypto_decryptAES b64 (secretKeyB64 self);
  match decryptedString with
  | None | Some EmptyString => mret (results ++ [JNull])
  | Some str =>
      v ← JSON_parse str;
      mret (results ++ [v])
  end.

Fixpoint decrypt_loop (self : t) (data : list bytes) (results : list JSValue)
  : Result (list JSValue) :=
  match data with
  | [] => Ok results
  | item :: rest =>
      results' ← try_catch (decrypt_try self item results)
                           (fun _ => mret (results ++ [JNull]));
      decrypt_loop self rest results'
  end.

Definition decrypt (self : t) (data : list bytes) : Result (list JSValue) :=
  decrypt_loop self data [].

End WithCrypto.
End AES256Encryption.

(** The [Encryptor] / [Decryptor] interfaces: the three classes as one tagged
    variant, with the batch operation each of them implements. *)
Module Encryptor.
Section Schemes.
Context {Rng : Type} {LS : Libsodium Rng} {SO : Sodium} {B64 : Base64}
  {RN : RnEncryption} {JS : JSON}.

Inductive Scheme : Type :=
| SecretBox (self : SecretBoxEncryption.t)
| Box (self : BoxEncryption.t)
| AES256 (self : AES256Encryption.t).

Definition decrypt (scheme : Scheme) (data : list bytes)
  : Result (list JSValue) :=
  match scheme with
  | SecretBox self => SecretBoxEncryption.decrypt self data
  | Box self => BoxEncryption.decrypt self data
  | AES256 self => AES256Encryption.decrypt self data
  end.

(** *** Vocabulary of the specification *)

(** What one AES item contributes to the result array. *)
Definition aes_item (self : AES256Encryption.t) (item : bytes) : JSValue :=
  match encodeBase64 item with
  | Throw _ => JNull
  | Ok b64 =>
      match crypto_decryptAES b64 (AES256Encryption.secretKeyB64 self) with
      | Throw _ => JNull
      | Ok None => JNull
      | Ok (Some EmptyString) => JNull
      | Ok (Some str) =>
          match JSON_parse str with
          | Throw _ => JNull
          | Ok v => v
          end
      end
  end.

(** [item] is a ciphertext of [plain]: its decryption under the scheme
    succeeds and gives [plain]. *)
Definition decrypts_to (scheme : Scheme) (item : bytes) (plain : JSValue)
  : Prop :=
  match scheme with
  | SecretBox self =>
      decryptSecretBox item (SecretBoxEncryption.secretKey self) = Ok plain
  | Box self =>
      decryptBox item (BoxEncryption.privateKey self) = Ok plain
  | AES256 self =>
      exists b64 str,
        encodeBase64 item = Ok b64 /\
        crypto_decryptAES b64 (AES256Encryption.secretKeyB64 self)
          = Ok (Some str) /\
        str <> EmptyString /\
        JSON_parse str = Ok plain
  end.

(** The ways the AES path can fail on one item. *)
Inductive aes_failure (self : AES256Encryption.t) (item : bytes) : Prop :=
| aes_bad_encoding e :
    encodeBase64 item = Throw e -> aes_failure self item
| aes_decrypt_throws b64 e :
    encodeBase64 item = Ok b64 ->
    crypto_decryptAES b64 (AES256Encryption.secretKeyB64 self) = Throw e ->
    aes_failure self item
| aes_no_text b64 :
    encodeBase64 item = Ok b64 ->
    crypto_decryptAES b64 (AES256Encryption.secretKeyB64 self) = Ok None ->
    aes_failure self item
| aes_empty_text b64 :
    encodeBase64 item = Ok b64 ->
    crypto_decryptAES b64 (AES256Encryption.secretKeyB64 self)
      = Ok (Some EmptyString) ->
    aes_failure self item
| aes_bad_json b64 str e :
    encodeBase64 item = Ok b64 ->
    crypto_decryptAES b64 (AES256Encryption.secretKeyB64 self)
      = Ok (Some str) ->
    JSON_parse str = Throw e ->
    aes_failure self item.

(** Decryption of [item] fails.  The libsodium wrappers are used as functions
    to [any | null]: a failure is their [null] result. *)
Definition decrypt_fails (scheme : Scheme) (item : bytes) : Prop :=
  match scheme with
  | SecretBox self =>
      decryptSecretBox item (SecretBoxEncryption.secretKey self) = Ok JNull
  | Box self =>
      decryptBox item (BoxEncryption.privateKey self) = Ok JNull
  | AES256 self => aes_failure self item
  end.

(** What the round trip needs from the libsodium wrappers for one plaintext
    [x]: whatever nonce is drawn, encryption succeeds and the matching
    decryption gives [x] back. *)
Definition secretbox_roundtrips (key : bytes) (x : JSValue) : Prop :=
  forall rng, exists c rng',
    encryptSecretBox x key rng = (Ok c, rng') /\
    decryptSecretBox c key = Ok x.

Definition box_roundtrips (publicKey privateKey : bytes) (x : JSValue) : Prop :=
  forall rng, exists c rng',
    encryptBox x publicKey rng = (Ok c, rng') /\
    decryptBox c privateKey = Ok x.

End Schemes.
End Encryptor.

(** ** The imports of the ApiSocket part of storageTypes.ts *)

(** import { ApiEncryption } from './apiEncryption': the encryption context
    handed to [initialize], and the two methods [rpc] and [daemonRpc] call on
    it.  [Ciphertext] is whatever [encryptRaw] returns and [decryptRaw]
    accepts. *)
Class ApiEncryptionModule : Type := {
  ApiEncryption : Type;
  Ciphertext : Type;
  encryptRaw : ApiEncryption -> JSValue -> Result Ciphertext;
  decryptRaw : ApiEncryption -> Ciphertext -> Result JSValue
}.

(** ** ApiSocket *)

Module ApiSocket.

Inductive Status : Type := disconnected | connecting | connected | error.

#[global] Instance Status_eq_dec : EqDecision Status.
Proof. solve_decision. Defined.

Record SyncSocketConfig : Type := { endpoint : string; token : string }.

(** The socket.io [Socket] object, as far as ApiSocket looks at it: the
    [recovered] flag the transport sets, and whether [setupEventHandlers] has
    installed the handlers on it. *)
Record Socket : Type := { recovered : bool; handlersInstalled : bool }.

(** A callback is a function object; what matters is its identity. *)
Abbreviation Callback := nat.

(** A [Set] of callbacks: insertion-ordered, without duplicates. *)
Definition Set_add (x : Callback) (s : list Callback) : list Callback :=
  if decide (x ∈ s) then s else s ++ [x].

Definition Set_delete (x : Callback) (s : list Callback) : list Callback :=
  filter (fun y => y <> x) s.

(** How a call ends: it returns (an async method's promise resolves), it
    throws (the promise rejects), or its promise never settles. *)
Inductive Promise (A : Type) : Type :=
| Resolved (a : A)
| Rejected (e : JSError)
| Pending.
Arguments Resolved {A} a.
Arguments Rejected {A} e.
Arguments Pending {A}.

Section WithApiEncryption.
Context {AE : ApiEncryptionModule}.

(** The request and the response of the wire method 'rpc-call'. *)
Record RpcCall : Type := { method : string; params : Ciphertext }.

Record RpcResponse : Type := {
  ok : bool;
  result : Ciphertext;
  error_ : option string   (* the [error] field; [None] when absent *)
}.

(** The private fields of the class. *)
Record State : Type := {
  socket : option Socket;
  config : option SyncSocketConfig;
  encryption : option ApiEncryption;
  messageHandlers : gmap string Callback;
  reconnectedListeners : list Callback;
  statusListeners : list Callback;
  currentStatus : Status
}.

Definition initial : State := {|
  socket := None;
  config := None;
  encryption := None;
  messageHandlers := ∅;
  reconnectedListeners := [];
  statusListeners := [];
  currentStatus := disconnected
|}.

Definition set_socket (v : option Socket) (st : State) : State :=
  {| socket := v; config := config st; encryption := encryption st;
     messageHandlers := messageHandlers st;
     reconnectedListeners := reconnectedListeners st;
     statusListeners := statusListeners st;
     currentStatus := currentStatus st |}.

Definition set_config (v : option SyncSocketConfig) (st : State) : State :=
  {| socket := socket st; config := v; encryption := encryption st;
     messageHandlers := messageHandlers st;
     reconnectedListeners := reconnectedListeners st;
     statusListeners := statusListeners st;
     currentStatus := currentStatus st |}.

Definition set_encryption (v : option ApiEncryption) (st : State) : State :=
  {| socket := socket st; config := config st; encryption := v;
     messageHandlers := messageHandlers st;
     reconnectedListeners := reconnectedListeners st;
     statusListeners := statusListeners st;
     currentStatus := currentStatus st |}.

Definition set_messageHandlers (v : gmap string Callback) (st : State)
  : State :=
  {| socket := socket st; config := config st; encryption := encryption st;
     messageHandlers := v;
     reconnectedListeners := reconnectedListeners st;
     statusListeners := statusListeners st;
     currentStatus := currentStatus st |}.

Definition set_reconnectedListeners (v : list Callback) (st : State) : State :=
  {| socket := socket st; config := config st; encryption := encryption st;
     messageHandlers := messageHandlers st;
     reconnectedListeners := v;
     statusListeners := statusListeners st;
     currentStatus := currentStatus st |}.

Definition set_statusListeners (v : list Callback) (st : State) : State :=
  {| socket := socket st; config := config st; encryption := encryption st;
     messageHandlers := messageHandlers st;
     reconnectedListeners := reconnectedListeners st;
     statusListeners := v; currentStatus := currentStatus st |}.

Definition set_currentStatus (v : Status) (st : State) : State :=
  {| socket := socket st; config := config st; encryption := encryption st;
     messageHandlers := messageHandlers st;
     reconnectedListeners := reconnectedListeners st;
     statusListeners := statusListeners st; currentStatus := v |}.

(** The options [connect] passes to [io]; [reconnectionAttempts] is [None]
    for [Infinity]. *)
Record IoOptions : Type := {
  path : string;
  auth_token : string;
  auth_clientType : string;
  transports : list string;
  reconnection : bool;
  reconnectionDelay : Z;
  reconnectionDelayMax : Z;
  reconnectionAttempts : option Z
}.

Definition io_options (cfg : SyncSocketConfig) : IoOptions := {|
  path := "/v1/updates";
  auth_token := token cfg;
  auth_clientType := "user-scoped";
  transports := ["websocket"];
  reconnection := true;
  reconnectionDelay := 1000%Z;
  reconnectionDelayMax := 5000%Z;
  reconnectionAttempts := None
|}.

(** *** Effects *)

Inductive LogArg : Type :=
| LogValue (v : JSValue)
| LogResponse (r : RpcResponse).

(** What a method does to the outside world, in order: calls into socket.io
    ([io], [socket.disconnect], [emitWithAck] with the timeout set on the
    socket if any, [emit]), console output, and calls of registered
    callbacks. *)
Inductive Effect : Type :=
| IoConnect (endpoint : string) (options : IoOptions)
| SocketDisconnect
| EmitWithAck (timeout : option Z) (event : string) (payload : RpcCall)
| Emit (event : string) (data : JSValue)
| ConsoleLog (message : string) (arg : LogArg)
| ConsoleError (message : string) (err : JSError)
| StatusListenerCall (listener : Callback) (status : Status)
| ReconnectedListenerCall (listener : Callback)
| MessageHandlerCall (handler : Callback) (data : JSValue).

(** Whether an effect sends something to the server. *)
Definition on_the_wire (e : Effect) : bool :=
  match e with
  | EmitWithAck _ _ _ | Emit _ _ => true
  | _ => false
  end.

(** A method body: from the fields before the call to how the call ends,
    the fields after it and the effects it had. *)
Definition M (A : Type) : Type := State -> Promise A * State * list Effect.

Definition run {A : Type} (m : M A) (st : State)
  : Promise A * State * list Effect := m st.
Definition outcome {A : Type} (m : M A) (st : State) : Promise A :=
  (m st).1.1.
Definition state_after {A : Type} (m : M A) (st : State) : State :=
  (m st).1.2.
Definition effects {A : Type} (m : M A) (st : State) : list Effect :=
  (m st).2.

#[global] Instance M_ret : MRet M := fun A a st => (Resolved a, st, []).
#[global] Instance M_bind : MBind M := fun A B f m st =>
  match m st with
  | (Resolved a, st', t) =>
      match f a st' with
      | (r, st'', t') => (r, st'', t ++ t')
      end
  | (Rejected e, st', t) => (Rejected e, st', t)
  | (Pending, st', t) => (Pending, st', t)
  end.

Definition get : M State := fun st => (Resolved st, st, []).
Definition modify (f : State -> State) : M unit :=
  fun st => (Resolved tt, f st, []).
Definition perform (e : Effect) : M unit := fun st => (Resolved tt, st, [e]).
Definition throw {A : Type} (e : JSError) : M A :=
  fun st => (Rejected e, st, []).
Definition lift {A : Type} (r : Result A) : M A :=
  match r with
  | Ok a => mret a
  | Throw e => throw e
  end.

(** try { body } catch (error) { handler error } *)
Definition try_catch_M {A : Type} (body : M A) (handler : JSError -> M A)
  : M A :=
  fun st =>
    match body st with
    | (Rejected e, st', t) =>
        match handler e st' with
        | (r, st'', t') => (r, st'', t ++ t')
        end
    | settled => settled
    end.

(** [o!.property]: reading a property of [null] throws a TypeError. *)
Definition nonnull {A : Type} (o : option A) (property : string) : M A :=
  match o with
  | Some x => mret x
  | None => throw (TypeError_null property)
  end.

(** [set.forEach(listener => call listener)] *)
Fixpoint forEach (s : list Callback) (call : Callback -> M unit) : M unit :=
  match s with
  | [] => mret tt
  | listener :: rest => call listener;; forEach rest call
  end.

(** *** socket.io *)

(** What comes back for one [emitWithAck]: the server's acknowledgement, or
    nothing. *)
Inductive Ack : Type :=
| Acked (response : RpcResponse)
| NoAck.

(** The error socket.io rejects with when a timeout set by
    [socket.timeout(ms)] expires before the acknowledgement. *)
Definition timeout_error : JSError := Error "operation has timed out".

(** [socket.emitWithAck(event, payload)], after [socket.timeout(ms)] when
    [timeout] is [Some ms]. *)
Definition emitWithAck (timeout : option Z) (event : string)
  (payload : RpcCall) (ack : Ack) : M RpcResponse :=
  perform (EmitWithAck timeout event payload);;
  match ack, timeout with
  | Acked response, _ => mret response
  | NoAck, Some _ => throw timeout_error
  | NoAck, None => fun st => (Pending, st, [])
  end.

(** *** Private methods *)

Definition updateStatus (status : Status) : M unit :=
  st ← get;
  if decide (currentStatus st <> status) then
    modify (set_currentStatus status);;
    st' ← get;
    forEach (statusListeners st')
      (fun listener => perform (StatusListenerCall listener status))
  else mret tt.

(** The handler installed for 'connect'. *)
Definition on_connect : M unit :=
  updateStatus connected;;
  st ← get;
  (* !this.socket?.recovered : a missing socket gives undefined *)
  if negb (from_option recovered false (socket st)) then
    forEach (reconnectedListeners st)
      (fun listener => perform (ReconnectedListenerCall listener))
  else mret tt.

(** The handlers for 'disconnect', 'connect_error', 'error' and 'auth'. *)
Definition on_disconnect : M unit := updateStatus disconnected.
Definition on_connect_error : M unit := updateStatus error.
Definition on_error : M unit := updateStatus error.
Definition on_auth (data : JSValue) : M unit := mret tt.

(** The handler installed with [onAny]. *)
Definition on_any (event : string) (data : JSValue) : M unit :=
  st ← get;
  match messageHandlers st !! event with
  | Some handler => perform (MessageHandlerCall handler data)
  | None => mret tt
  end.

Definition setupEventHandlers : M unit :=
  st ← get;
  match socket st with
  | None => mret tt
  | Some sock =>
      modify (set_socket
        (Some {| recovered := recovered sock; handlersInstalled := true |}))
  end.

(** *** Initialization and connection management *)

Definition connect : M unit :=
  st ← get;
  match config st, socket st with
  | Some cfg, None =>
      updateStatus connecting;;
      perform (IoConnect (endpoint cfg) (io_options cfg));;
      modify (set_socket
        (Some {| recovered := false; handlersInstalled := false |}));;
      setupEventHandlers
  | _, _ => mret tt
  end.

Definition initialize (cfg : SyncSocketConfig) (enc : ApiEncryption) : M unit :=
  modify (set_config (Some cfg));;
  modify (set_encryption (Some enc));;
  connect.

Definition disconnect : M unit :=
  st ← get;
  match socket st with
  | Some _ => perform SocketDisconnect;; modify (set_socket None)
  | None => mret tt
  end;;
  updateStatus disconnected.

(** *** Listener management *)

Definition onReconnected (listener : Callback) : M unit :=
  modify (fun st =>
    set_reconnectedListeners (Set_add listener (reconnectedListeners st)) st).

(** The function [onReconnected] returns. *)
Definition onReconnected_unsubscribe (listener : Callback) : M unit :=
  modify (fun st =>
    set_reconnectedListeners
      (Set_delete listener (reconnectedListeners st)) st).

Definition onStatusChange (listener : Callback) : M unit :=
  modify (fun st =>
    set_statusListeners (Set_add listener (statusListeners st)) st);;
  (* Immediately notify with current status *)
  st ← get;
  perform (StatusListenerCall listener (currentStatus st)).

(** The function [onStatusChange] returns. *)
Definition onStatusChange_unsubscribe (listener : Callback) : M unit :=
  modify (fun st =>
    set_statusListeners (Set_delete listener (statusListeners st)) st).

(** *** Message handling *)

Definition onMessage (event : string) (handler : Callback) : M unit :=
  modify (fun st =>
    set_messageHandlers (<[event:=handler]> (messageHandlers st)) st).

(** The function [onMessage] returns. *)
Definition onMessage_unsubscribe (event : string) : M unit :=
  modify (fun st => set_messageHandlers (delete event (messageHandlers st)) st).

Definition offMessage (event : string) (handler : Callback) : M unit :=
  modify (fun st => set_messageHandlers (delete event (messageHandlers st)) st).

Definition rpc (sessionId method_ : string) (params_ : JSValue) (ack : Ack)
  : M JSValue :=
  st ← get;
  _ ← nonnull (socket st) "emitWithAck";
  enc ← nonnull (encryption st) "encryptRaw";
  ciphertext ← lift (encryptRaw enc params_);
  response ← emitWithAck None "rpc-call"
    {| method := sessionId +:+ ":" +:+ method_; params := ciphertext |} ack;
  if ok response then
    st' ← get;
    (* this.encryption?.decryptRaw(result.result) *)
    match encryption st' with
    | Some enc' => lift (decryptRaw enc' (result response))
    | None => mret JUndefined
    end
  else throw (Error "RPC call failed").

Definition daemonRpc (machineId method_ : string) (params_ : JSValue)
  (ack : Ack) : M JSValue :=
  st ← get;
  match socket st with
  | None => throw (Error "Socket not connected")
  | Some _ =>
      match encryption st with
      | None => throw (Error "Encryption not initialized")
      | Some enc =>
          perform (ConsoleLog
            ("🔌 DaemonRPC: Calling " +:+ machineId +:+ ":" +:+ method_)
            (LogValue params_));;
          try_catch_M
            (ciphertext ← lift (encryptRaw enc params_);
             response ← emitWithAck (Some 15000%Z) "rpc-call"
               {| method := machineId +:+ ":" +:+ method_;
                  params := ciphertext |} ack;
             perform (ConsoleLog
               ("🔌 DaemonRPC: Response for " +:+ machineId +:+ ":" +:+ method_)
               (LogResponse response));;
             if ok response then lift (decryptRaw enc (result response))
             else throw (Error (js_or_string (error_ response)
                                  "Daemon RPC call failed")))
            (fun err =>
               perform (ConsoleError
                 ("🔌 DaemonRPC: Error for " +:+ machineId +:+ ":" +:+ method_)
                 err);;
               throw err)
      end
  end.

Definition send (event : string) (data : JSValue) : M bool :=
  st ← get;
  _ ← nonnull (socket st) "emit";
  perform (Emit event data);;
  mret true.

(** *** Token management *)

Definition updateToken (newToken : string) : M unit :=
  st ← get;
  match config st with
  | Some cfg =>
      if decide (token cfg <> newToken) then
        modify (set_config
          (Some {| endpoint := endpoint cfg; token := newToken |}));;
        st' ← get;
        match socket st' with
        | Some _ => disconnect;; connect
        | None => mret tt
        end
      else mret tt
  | None => mret tt
  end.

(** *** The class in use *)

(** What socket.io reports on a socket: the transport connected (with the
    [recovered] flag it has set), disconnected, failed, or delivered a named
    event from the server. *)
Inductive SocketEvent : Type :=
| Ev_connect (recovered : bool)
| Ev_disconnect
| Ev_connect_error
| Ev_error
| Ev_message (event : string) (data : JSValue).

(** socket.io runs the handlers installed on the current socket. *)
Definition deliver (ev : SocketEvent) : M unit :=
  st ← get;
  match socket st with
  | Some sock =>
      if handlersInstalled sock then
        match ev with
        | Ev_connect r =>
            modify (set_socket
              (Some {| recovered := r; handlersInstalled := true |}));;
            on_connect
        | Ev_disconnect => on_disconnect
        | Ev_connect_error => on_connect_error
        | Ev_error => on_error
        | Ev_message event data =>
            (if decide (event = "auth") then on_auth data else mret tt);;
            on_any event data
        end
      else mret tt
  | None => mret tt
  end.

(** One use of the object by the application or by socket.io. *)
Inductive Call : Type :=
| Call_initialize (cfg : SyncSocketConfig) (enc : ApiEncryption)
| Call_connect
| Call_disconnect
| Call_onReconnected (listener : Callback)
| Call_onReconnected_unsubscribe (listener : Callback)
| Call_onStatusChange (listener : Callback)
| Call_onStatusChange_unsubscribe (listener : Callback)
| Call_onMessage (event : string) (handler : Callback)
| Call_onMessage_unsubscribe (event : string)
| Call_offMessage (event : string) (handler : Callback)
| Call_rpc (sessionId method_ : string) (params_ : JSValue) (ack : Ack)
| Call_daemonRpc (machineId method_ : string) (params_ : JSValue) (ack : Ack)
| Call_send (event : string) (data : JSValue)
| Call_updateToken (newToken : string)
| Call_deliver (ev : SocketEvent).

(** A call with its result dropped. *)
Definition ignore {A : Type} (m : M A) : State -> State * list Effect :=
  fun st => (state_after m st, effects m st).

Definition run_call (c : Call) : State -> State * list Effect :=
  match c with
  | Call_initialize cfg enc => ignore (initialize cfg enc)
  | Call_connect => ignore connect
  | Call_disconnect => ignore disconnect
  | Call_onReconnected l => ignore (onReconnected l)
  | Call_onReconnected_unsubscribe l => ignore (onReconnected_unsubscribe l)
  | Call_onStatusChange l => ignore (onStatusChange l)
  | Call_onStatusChange_unsubscribe l => ignore (onStatusChange_unsubscribe l)
  | Call_onMessage e h => ignore (onMessage e h)
  | Call_onMessage_unsubscribe e => ignore (onMessage_unsubscribe e)
  | Call_offMessage e h => ignore (offMessage e h)
  | Call_rpc s m p ack => ignore (rpc s m p ack)
  | Call_daemonRpc s m p ack => ignore (daemonRpc s m p ack)
  | Call_send e d => ignore (send e d)
  | Call_updateToken t => ignore (updateToken t)
  | Call_deliver ev => ignore (deliver ev)
  end.

Fixpoint run_calls (cs : list Call) (st : State) : State * list Effect :=
  match cs with
  | [] => (st, [])
  | c :: rest =>
      let '(st1, t1) := run_call c st in
      let '(st2, t2) := run_calls rest st1 in
      (st2, t1 ++ t2)
  end.

(** The states the singleton can be in. *)
Inductive Reachable : State -> Prop :=
| Reachable_initial : Reachable initial
| Reachable_call st c : Reachable st -> Reachable (run_call c st).1.

(** *** Reading a trace *)

Definition reconnected_calls (t : list Effect) : list Callback :=
  omap (fun e => match e with
                 | ReconnectedListenerCall l => Some l
                 | _ => None
                 end) t.

(** The statuses delivered to [listener], in order. *)
Definition status_calls_to (listener : Callback) (t : list Effect)
  : list Status :=
  omap (fun e => match e with
                 | StatusListenerCall l s =>
                     if decide (l = listener) then Some s else None
                 | _ => None
                 end) t.

(** How often [listener] occurs in a list of calls. *)
Definition times_called (listener : Callback) (calls : list Callback) : nat :=
  length (filter (fun l => l = listener) calls).

(** *** Invariants *)

(** The two listener collections are [Set]s: no callback is in one twice. *)
Definition listener_sets_wf (st : State) : Prop :=
  NoDup (reconnectedListeners st) /\ NoDup (statusListeners st).

(** A socket exists only once [initialize] has stored the configuration and
    the encryption context. *)
Definition initialized_if_connected (st : State) : Prop :=
  (is_Some (socket st) -> is_Some (config st)) /\
  (is_Some (config st) -> is_Some (encryption st)).

(** A method body keeps [P], however it ends. *)
Definition preserves {A : Type} (P : State -> Prop) (m : M A) : Prop :=
  forall st, P st -> P (state_after m st).

(** The methods that leave [socket], [config] and [encryption] alone. *)
Definition keeps_connection {A : Type} (m : M A) : Prop :=
  forall P : option Socket -> option SyncSocketConfig ->
             option ApiEncryption -> Prop,
    preserves (fun st => P (socket st) (config st) (encryption st)) m.

End WithApiEncryption.
End ApiSocket.
From stdpp Require Import sorting.


(** ** More ways to read a trace *)

Module ApiSocketLog.
Import ApiSocket.
Section WithApiEncryption.
Context {AE : ApiEncryptionModule}.

(** The errors written with [console.error], in order. *)
Definition console_errors (t : list Effect) : list JSError :=
  omap (fun e => match e with
                 | ConsoleError _ err => Some err
                 | _ => None
                 end) t.

(** Whether an effect writes to the console. *)
Definition on_the_console (e : Effect) : bool :=
  match e with
  | ConsoleLog _ _ | ConsoleError _ _ => true
  | _ => false
  end.

(** No status is followed by the same status. *)
Fixpoint no_repeat (xs : list Status) : Prop :=
  match xs with
  | [] => True
  | x :: rest =>
      match rest with
      | [] => True
      | y :: _ => x <> y
      end /\ no_repeat rest
  end.

(** The last element of [xs], or [d] when there is none. *)
Fixpoint last_or (d : Status) (xs : list Status) : Status :=
  match xs with
  | [] => d
  | x :: rest => last_or x rest
  end.

(** [last] is the status [listener] heard last, if it is still registered;
    and the listener collections are sets. *)
Definition heard_last (listener : Callback) (st : State) (last : Status)
  : Prop :=
  listener_sets_wf st /\
  (listener ∈ statusListeners st -> currentStatus st = last).

(** A method body that tells [listener] of every change of status it makes
    while the listener is registered, never registers it, and tells it
    nothing once it is gone. *)
Definition tracked {A : Type} (listener : Callback) (m : M A) : Prop :=
  forall st last, heard_last listener st last ->
    let heard := status_calls_to listener (effects m st) in
    no_repeat (last :: heard) /\
    heard_last listener (state_after m st) (last_or last heard) /\
    (listener ∉ statusListeners st ->
     heard = [] /\ listener ∉ statusListeners (state_after m st)).

End WithApiEncryption.
End ApiSocketLog.

(** ** The rest of encryptor.ts: [AES256Encryption.encrypt] *)

(** import { decodeBase64 } from "@/auth/base64" and import { decodeUTF8 }
    from "@/encryption/text": [Decoded] is what the first hands to the
    second. *)
Class Decoding : Type := {
  Decoded : Type;
  decodeBase64 : string -> Result Decoded;
  decodeUTF8 : Decoded -> Result string
}.

(** [crypto.encryptAES] of 'rn-encryption'; it draws a fresh IV.  Its first
    argument is what [JSON.stringify] returned: a string, or [undefined]
    ([None]). *)
Class RnEncryptionEncrypt (Rng : Type) : Type := {
  crypto_encryptAES :
    option string -> string -> Rng -> Result string * Rng
}.

(** [JSON.stringify]: a string, [undefined] ([None]) for a value JSON has no
    text for, or an exception. *)
Class JSONStringify : Type := {
  JSON_stringify : JSValue -> Result (option string)
}.

Module AES256Encrypt.
Section WithCrypto.
Context {Rng : Type} {RNE : RnEncryptionEncrypt Rng} {JSS : JSONStringify}
  {DEC : Decoding} {JS : JSON}.

(** JSON.parse(decodeUTF8(decodeBase64(encrypted))) *)
Definition reparse (encrypted : string) : Result JSValue :=
  decoded ← decodeBase64 encrypted;
  text ← decodeUTF8 decoded;
  JSON_parse text.

(** The loop of [AES256Encryption.encrypt].  What it pushes is the value
    [JSON.parse] returned, whatever the declared element type says. *)
Fixpoint encrypt_loop (self : AES256Encryption.t) (data : list JSValue)
  (results : list JSValue) (rng : Rng) : Result (list JSValue) * Rng :=
  match data with
  | [] => (Ok results, rng)
  | item :: rest =>
      match JSON_stringify item with
      | Throw e => (Throw e, rng)
      | Ok jsonString =>
          match crypto_encryptAES jsonString
                  (AES256Encryption.secretKeyB64 self) rng with
          | (Throw e, rng') => (Throw e, rng')
          | (Ok encrypted, rng') =>
              match reparse encrypted with
              | Throw e => (Throw e, rng')
              | Ok v => encrypt_loop self rest (results ++ [v]) rng'
              end
          end
      end
  end.

Definition encrypt (self : AES256Encryption.t) (data : list JSValue)
  (rng : Rng) : Result (list JSValue) * Rng :=
  encrypt_loop self data [] rng.

End WithCrypto.
End AES256Encrypt.

(** ** The rest of ApiSocket: [updateMachineMetadata] and [request] *)

(** import { TokenStorage } from '@/auth/tokenStorage': what
    [getCredentials] resolves to. *)
Record Credentials : Type := { credentials_token : string }.

Module ApiSocketRequests.
Section WithApiEncryption.
Context {AE : ApiEncryptionModule}.

(** The argument and the result of [updateMachineMetadata]. *)
Record MetadataUpdate : Type := {
  machineId : string;
  metadata : string;
  expectedVersion : Z
}.

Inductive UpdateResult : Type :=
| update_success
| update_error
| update_version_mismatch.

Record MetadataReply : Type := {
  reply_result : UpdateResult;
  reply_version : option Z;
  reply_metadata : option string;
  reply_message : option string
}.

(** The part of a [RequestInit] the model follows. *)
Record RequestInit : Type := {
  init_method : option string;
  init_body : option string;
  init_headers : option (gmap string string)
}.

(** What the two methods do to the outside world. *)
Inductive RequestEffect : Type :=
| EmitMetadataUpdate (timeout : Z) (event : string) (params : MetadataUpdate)
| GetCredentials
| Fetch (url : string) (init : RequestInit).

Inductive MetadataAck : Type :=
| MetadataAcked (reply : MetadataReply)
| MetadataNoAck.

(** [updateMachineMetadata(params)].  [connected] is the socket's
    [connected] flag at the time of the call. *)
Definition updateMachineMetadata (params : MetadataUpdate) (connected : bool)
  (ack : MetadataAck) (st : ApiSocket.State)
  : ApiSocket.Promise MetadataReply * list RequestEffect :=
  match ApiSocket.socket st with
  | None => (ApiSocket.Rejected (Error "Socket not connected"), [])
  | Some _ =>
      if negb connected
      then (ApiSocket.Rejected (Error "Socket not connected"), [])
      else
        (match ack with
         | MetadataAcked reply => ApiSocket.Resolved reply
         | MetadataNoAck => ApiSocket.Rejected ApiSocket.timeout_error
         end,
         [EmitMetadataUpdate 10000%Z "machine-update-metadata" params])
  end.

(** { 'Authorization': `Bearer ${token}`, ...options?.headers } *)
Definition request_headers (creds : Credentials)
  (options : option RequestInit) : gmap string string :=
  default ∅ (options ≫= init_headers)
  ∪ {[ "Authorization" := "Bearer " +:+ credentials_token creds ]}.

(** [request(path, options)].  [credentials] is what
    [TokenStorage.getCredentials()] settles to, [response] what [fetch]
    settles to. *)
Definition request {Response : Type} (path : string)
  (options : option RequestInit)
  (credentials : Result (option Credentials)) (response : Result Response)
  (st : ApiSocket.State)
  : ApiSocket.Promise Response * list RequestEffect :=
  match ApiSocket.config st with
  | None => (ApiSocket.Rejected (Error "SyncSocket not initialized"), [])
  | Some cfg =>
      match credentials with
      | Throw e => (ApiSocket.Rejected e, [GetCredentials])
      | Ok None =>
          (ApiSocket.Rejected (Error "No authentication credentials"),
           [GetCredentials])
      | Ok (Some creds) =>
          let url := ApiSocket.endpoint cfg +:+ path in
          let init := {|
            init_method := options ≫= init_method;
            init_body := options ≫= init_body;
            init_headers := Some (request_headers creds options)
          |} in
          (match response with
           | Ok r => ApiSocket.Resolved r
           | Throw e => ApiSocket.Rejected e
           end,
           [GetCredentials; Fetch url init])
      end
  end.

End WithApiEncryption.
End ApiSocketRequests.

(** ** Vocabulary for the batch loops of encryptor.ts *)

Module EncryptorBatch.
Section Schemes.
Context {Rng : Type} {LS : Libsodium Rng} {SO : Sodium} {B64 : Base64}
  {RN : RnEncryption} {JS : JSON} {RNE : RnEncryptionEncrypt Rng}
  {JSS : JSONStringify} {DEC : Decoding}.

(** What one turn of a [decrypt] loop pushes, or throws. *)
Definition decrypt_item (scheme : Encryptor.Scheme) (item : bytes)
  : Result JSValue :=
  match scheme with
  | Encryptor.SecretBox self =>
      decryptSecretBox item (SecretBoxEncryption.secretKey self)
  | Encryptor.Box self => decryptBox item (BoxEncryption.privateKey self)
  | Encryptor.AES256 self => Ok (Encryptor.aes_item self item)
  end.

(** What one turn of [AES256Encryption.encrypt] pushes, or throws. *)
Definition aes_encrypt_item (self : AES256Encryption.t) (item : JSValue)
  (rng : Rng) : Result JSValue * Rng :=
  match JSON_stringify item with
  | Throw e => (Throw e, rng)
  | Ok jsonString =>
      match crypto_encryptAES jsonString
              (AES256Encryption.secretKeyB64 self) rng with
      | (Throw e, rng') => (Throw e, rng')
      | (Ok encrypted, rng') => (AES256Encrypt.reparse encrypted, rng')
      end
  end.

(** One batch after another, on the random source the first one left; the
    second is not started when the first throws. *)
Definition and_then {A : Type} (first : Result (list A) * Rng)
  (second : Rng -> Result (list A) * Rng) : Result (list A) * Rng :=
  match first with
  | (Throw e, rng) => (Throw e, rng)
  | (Ok xs, rng) =>
      match second rng with
      | (Throw e, rng') => (Throw e, rng')
      | (Ok ys, rng') => (Ok (xs ++ ys), rng')
      end
  end.

End Schemes.
End EncryptorBatch.

(** ** app/(app)/machine/[id].tsx: the logic of [MachineDetailScreen] *)

Module MachineDetailScreen.

(** The fields of [Session] and of its [Metadata] the screen reads. *)
Record SessionMetadata : Type := {
  metadata_path : string;
  metadata_machineId : option string
}.

Record Session : Type := {
  session_id : string;
  session_metadata : option SessionMetadata
}.

(** An element of [useSessions()]: a section title or a session. *)
Inductive SessionListItem : Type :=
| Title (text : string)
| Item (session : Session).

(** Truthiness of a string that may be [undefined]. *)
Definition truthy (s : option string) : bool :=
  match s with
  | None | Some EmptyString => false
  | Some _ => true
  end.

(** The [machineSessions] memo.  [machineId] is the route parameter. *)
Definition machineSessions (sessions : option (list SessionListItem))
  (machineId : option string) : list Session :=
  match sessions with
  | None => []
  | Some items =>
      if negb (truthy machineId) then []
      else
        omap (fun item =>
                match item with
                | Title _ => None
                | Item session =>
                    if decide (session_metadata session ≫= metadata_machineId
                               = machineId)
                    then Some session else None
                end) items
  end.

(** [paths.add(p)] on a [Set<string>], in insertion order. *)
Definition paths_add (p : string) (paths : list string) : list string :=
  if decide (p ∈ paths) then paths else paths ++ [p].

(** The [recentPaths] memo.  [sort()] without a comparator orders strings by
    their code units; the strings of the model are compared byte by byte,
    which is the same order on text of the Basic Multilingual Plane. *)
Definition recentPaths (machineSessions : list Session) : list string :=
  merge_sort String.le
    (foldl (fun paths session =>
              match session_metadata session with
              | Some m =>
                  if truthy (Some (metadata_path m))
                  then paths_add (metadata_path m) paths
                  else paths
              | None => paths
              end) [] machineSessions).

(** [s.includes(search)] *)
Fixpoint includes (search s : string) : bool :=
  if String.prefix search s then true
  else match s with
       | EmptyString => false
       | String _ rest => includes search rest
       end.

(** What a [catch] clause receives: an instance of [Error] with its message,
    or any other value. *)
Inductive Thrown : Type :=
| ErrorInstance (message : string)
| OtherValue (v : JSValue).

(** The text [handleStartSession] shows for a caught error. *)
Definition errorMessage (error : Thrown) : string :=
  match error with
  | ErrorInstance message =>
      if includes "timeout" message
      then "Session startup timed out. The machine may be slow or the daemon may not be responding."
      else if includes "Socket not connected" message
      then "Not connected to server. Check your internet connection."
      else "Failed to start session. Make sure the daemon is running on the target machine."
  | OtherValue _ =>
      "Failed to start session. Make sure the daemon is running on the target machine."
  end.

(** What [spawnRemoteSession] (of '@/sync/ops') resolves to. *)
Record SpawnResult : Type := { sessionId : option string }.

Inductive SpawnOutcome : Type :=
| Spawned (result : SpawnResult)
| SpawnFailed (error : Thrown).

Inductive LogArg : Type :=
| LogResult (result : SpawnResult)
| LogString (s : string)
| LogThrown (error : Thrown).

(** What the handler does to the outside world, in order. *)
Inductive UiEffect : Type :=
| ConsoleLog (message : string) (arg : option LogArg)
| ConsoleError (message : string) (arg : LogArg)
| SpawnRemoteSession (machineId path : string)
| GetState
| RouterReplace (href : string)
| SetTimeout (ms : Z)
| ModalAlert (title message : string).

Inductive Settled : Type :=
| Fulfilled
| RejectedWith (error : Thrown).

Definition pollInterval : Z := 100%Z.
Definition maxAttempts : nat := 20.

(** One run of [pollForSession].  [attempts] is the counter before the run,
    [sessions] is [Object.values(storage.getState().sessions)]; the result
    holds the counter when the run scheduled another one. *)
Definition pollForSession (sessionId : string) (attempts : nat)
  (sessions : list Session) : list UiEffect * option nat :=
  match find (fun s => bool_decide (session_id s = sessionId)) sessions with
  | Some _ =>
      ([GetState;
        ConsoleLog "📱 Navigating to session:" (Some (LogString sessionId));
        RouterReplace ("/session/" +:+ sessionId)], None)
  | None =>
      let attempts := S attempts in
      if attempts <? maxAttempts
      then ([GetState; SetTimeout pollInterval], Some attempts)
      else ([GetState;
             ConsoleLog "⏰ Polling timeout - session should appear soon" None;
             ModalAlert "Session started"
               "The session was started but may take a moment to appear."],
            None)
  end.

(** The runs of [pollForSession] as the timer fires them.  [store k] is the
    session list at the [k]-th read of the store; the flag tells whether the
    polling came to its end within [fuel] runs. *)
Fixpoint polling (fuel : nat) (sessionId : string) (attempts : nat)
  (store : nat -> list Session) (k : nat) : list UiEffect * bool :=
  match fuel with
  | O => ([], false)
  | S fuel' =>
      match pollForSession sessionId attempts (store k) with
      | (effects, None) => (effects, true)
      | (effects, Some attempts') =>
          let '(later, finished) :=
            polling fuel' sessionId attempts' store (S k) in
          (effects ++ later, finished)
      end
  end.

(** [handleStartSession(path)]: how its promise settles, and what it does,
    the timer runs included. *)
Definition handleStartSession (machineId : option string) (path : string)
  (spawned : SpawnOutcome) (store : nat -> list Session) (fuel : nat)
  : Settled * list UiEffect :=
  match machineId with
  | None | Some EmptyString => (Fulfilled, [])
  | Some machineId =>
      let catch (before : list UiEffect) (error : Thrown) :=
        (RejectedWith error,
         before ++
         [ConsoleError "💥 Failed to start session" (LogThrown error);
          ModalAlert "Error" (errorMessage error)]) in
      let started :=
        [ConsoleLog ("🚀 Starting session on machine " +:+ machineId
                     +:+ " at path: " +:+ path) None;
         SpawnRemoteSession machineId path] in
      match spawned with
      | SpawnFailed error => catch started error
      | Spawned result =>
          let logged :=
            started ++ [ConsoleLog "🎉 daemon result" (Some (LogResult result))]
          in
          match sessionId result with
          | None | Some EmptyString =>
              catch
                (logged ++
                 [ConsoleError "❌ No sessionId in response:"
                    (LogResult result)])
                (ErrorInstance
                   "Session spawning failed - no session ID returned.")
          | Some sid =>
              (Fulfilled,
               logged ++
               [ConsoleLog "✅ Session spawned successfully:"
                  (Some (LogString sid))] ++
               (polling fuel sid 0 store 0).1)
          end
      end
  end.

(** *** Reading a trace *)

(** The dialogs shown, as (title, message), in order. *)
Definition alerts (t : list UiEffect) : list (string * string) :=
  omap (fun e => match e with
                 | ModalAlert title message => Some (title, message)
                 | _ => None
                 end) t.

(** The routes navigated to, in order. *)
Definition navigations (t : list UiEffect) : list string :=
  omap (fun e => match e with RouterReplace href => Some href | _ => None end)
       t.

(** The calls of [spawnRemoteSession], as (machine, path), in order. *)
Definition spawn_calls (t : list UiEffect) : list (string * string) :=
  omap (fun e => match e with
                 | SpawnRemoteSession machineId path => Some (machineId, path)
                 | _ => None
                 end) t.

(** The number of reads of the store. *)
Definition store_reads (t : list UiEffect) : nat :=
  length (omap (fun e => match e with GetState => Some tt | _ => None end) t).

(** The milliseconds of delay asked of the timer, in order. *)
Definition delays (t : list UiEffect) : list Z :=
  omap (fun e => match e with SetTimeout ms => Some ms | _ => None end) t.

(** The store holds a session with this id. *)
Definition present (sessionId : string) (sessions : list Session) : bool :=
  bool_decide (sessionId ∈ map session_id sessions).

End MachineDetailScreen.

(** * A small concrete instance

    Executable stand-ins for the imported primitives, used to run the model
    on concrete batches.  The "cipher" prefixes a nonce byte and the key to a
    tagged serialisation of the payload (n for null, b0 and b1 for the
    booleans, s before a string); opening checks the key. *)

Module Toy.

Fixpoint bytes_eqb (a b : bytes) : bool :=
  match a, b with
  | [], [] => true
  | x :: a', y :: b' => Byte.eqb x y && bytes_eqb a' b'
  | _, _ => false
  end.

Definition encode (v : JSValue) : option bytes :=
  match v with
  | JNull => Some [x6e]
  | JBool false => Some [x62; x30]
  | JBool true => Some [x62; x31]
  | JStr s => Some (x73 :: String.list_byte_of_string s)
  | _ => None
  end.

Definition decode (payload : bytes) : option JSValue :=
  match payload with
  | [x6e] => Some JNull
  | [x62; x30] => Some (JBool false)
  | [x62; x31] => Some (JBool true)
  | x73 :: s => Some (JStr (String.string_of_list_byte s))
  | _ => None
  end.

Definition nonce (rng : nat) : byte :=
  default x00 (Byte.of_nat (rng mod 256)).

Definition seal (x : JSValue) (key : bytes) (rng : nat)
  : Result bytes * nat :=
  match encode x with
  | Some payload => (Ok (nonce rng :: key ++ payload), S rng)
  | None => (Throw (Error "value cannot be serialised"), rng)
  end.

(** Opening never throws: a wrong key or a malformed payload gives [null]. *)
Definition open (c key : bytes) : Result JSValue :=
  match c with
  | [] => Ok JNull
  | _ :: body =>
      if bytes_eqb (take (length key) body) key
      then Ok (default JNull (decode (drop (length key) body)))
      else Ok JNull
  end.

Definition libsodium : Libsodium nat := {|
  encryptSecretBox := seal;
  decryptSecretBox := open;
  encryptBox := seal;
  decryptBox := fun c privateKey => open c (reverse privateKey)
|}.

Definition sodium : Sodium := {|
  crypto_box_seed_keypair := fun seed =>
    match seed with
    | [] => Throw (NativeError "invalid seed length")
    | _ => Ok {| kp_privateKey := seed; kp_publicKey := reverse seed |}
    end
|}.

Definition base64 : Base64 := {|
  encodeBase64 := fun b => Ok (String.string_of_list_byte b)
|}.

(** A ciphertext is the key followed by the clear text. *)
Definition rnEncryption : RnEncryption := {|
  crypto_decryptAES := fun ciphertext key =>
    if String.prefix key ciphertext
    then Ok (Some (String.substring (String.length key)
                     (String.length ciphertext - String.length key) ciphertext))
    else Throw (NativeError "authentication tag mismatch")
|}.

Definition json : JSON := {|
  JSON_parse := fun s =>
    if String.eqb s "null" then Ok JNull
    else if String.eqb s "true" then Ok (JBool true)
    else if String.eqb s "false" then Ok (JBool false)
    else if String.eqb s "7" then Ok (JNum 7)
    else Throw (SyntaxError "Unexpected token")
|}.

Definition key : bytes := [x6b; x31].
Definition wrong_key : bytes := [x6b; x32].

Definition secretBox : SecretBoxEncryption.t := SecretBoxEncryption.new key.

Definition box : BoxEncryption.t :=
  {| BoxEncryption.privateKey := key; BoxEncryption.publicKey := reverse key |}.

Definition aes : AES256Encryption.t :=
  {| AES256Encryption.secretKey := key;
     AES256Encryption.secretKeyB64 := "k1" |}.

Definition items : list JSValue := [JStr "ls -la"; JBool true; JStr "done"].

Definition sealed (x : JSValue) (k : bytes) (rng : nat) : bytes :=
  match seal x k rng with
  | (Ok c, _) => c
  | (Throw _, _) => []
  end.

(** [items] sealed for the secret-box scheme, the middle one under another
    key. *)
Definition corrupted_secretbox_batch : list bytes :=
  [sealed (JStr "ls -la") key 5; sealed (JBool true) wrong_key 6;
   sealed (JStr "done") key 7].

(** The same for the box scheme, whose public key is [reverse key]. *)
Definition corrupted_box_batch : list bytes :=
  [sealed (JStr "ls -la") (reverse key) 5; sealed (JBool true) key 6;
   sealed (JStr "done") (reverse key) 7].

Definition aes_plain : list JSValue := [JBool true; JBool false; JNum 7].

(** AES ciphertexts of [aes_plain], the middle one under another key. *)
Definition corrupted_aes_batch : list bytes :=
  [String.list_byte_of_string "k1true"; String.list_byte_of_string "k2false";
   String.list_byte_of_string "k17"].

(** The encryption context is a key; a ciphertext is the text of the key
    followed by the serialised value. *)
Definition apiEncryption : ApiEncryptionModule := {|
  ApiEncryption := bytes;
  Ciphertext := string;
  encryptRaw := fun k v =>
    match encode v with
    | Some payload => Ok (String.string_of_list_byte (k ++ payload))
    | None => Throw (Error "value cannot be serialised")
    end;
  decryptRaw := fun k c =>
    let body := String.list_byte_of_string c in
    if bytes_eqb (take (length k) body) k
    then Ok (default JNull (decode (drop (length k) body)))
    else Ok JNull
|}.

Definition cfg : ApiSocket.SyncSocketConfig :=
  {| ApiSocket.endpoint := "https://relay.example"; ApiSocket.token := "t0" |}.

(** The socket after [initialize]: connecting, with an encryption context. *)
Definition ready : ApiSocket.State (AE:=apiEncryption) :=
  (ApiSocket.run_calls (AE:=apiEncryption)
     [ApiSocket.Call_initialize (AE:=apiEncryption) cfg key]
     ApiSocket.initial).1.

(** Two listeners registered (one of them twice) before the transport
    reports a fresh connection. *)
Definition fresh_session : ApiSocket.State (AE:=apiEncryption) :=
  (ApiSocket.run_calls (AE:=apiEncryption)
     [ApiSocket.Call_initialize (AE:=apiEncryption) cfg key;
      ApiSocket.Call_onReconnected 11;
      ApiSocket.Call_onReconnected 12;
      ApiSocket.Call_onReconnected 11;
      ApiSocket.Call_onStatusChange 21]
     ApiSocket.initial).1.

(** The same, after the transport reported a resumed connection. *)
Definition resumed_session : ApiSocket.State (AE:=apiEncryption) :=
  (ApiSocket.run_calls (AE:=apiEncryption)
     [ApiSocket.Call_deliver (AE:=apiEncryption) (ApiSocket.Ev_connect true)]
     fresh_session).1.

(** A server refusal that names its reason. *)
Definition refusal : ApiSocket.RpcResponse (AE:=apiEncryption) :=
  ApiSocket.Build_RpcResponse (AE:=apiEncryption)
    false "-" (Some "session not found").

(** A socket that exists while the encryption context is missing. *)
Definition no_encryption : ApiSocket.State (AE:=apiEncryption) :=
  ApiSocket.set_encryption None ready.

End Toy.

(** Stand-ins for the imports of [AES256Encryption.encrypt].  The "cipher"
    hands the JSON text back unchanged when the key is "k1" and fails
    otherwise; base64 and UTF-8 decoding are the identity on bytes. *)
Module ToyEncrypt.

Definition jsonStringify : JSONStringify := {|
  JSON_stringify := fun v =>
    match v with
    | JUndefined => Ok None
    | JNull => Ok (Some "null")
    | JBool true => Ok (Some "true")
    | JBool false => Ok (Some "false")
    | JNum 7 => Ok (Some "7")
    | _ => Throw (Error "value cannot be serialised")
    end
|}.

Definition rnEncryptionEncrypt : RnEncryptionEncrypt nat := {|
  crypto_encryptAES := fun text key rng =>
    match text with
    | Some s =>
        if String.eqb key "k1" then (Ok s, S rng)
        else (Throw (NativeError "invalid key"), rng)
    | None => (Throw (NativeError "expected a string"), rng)
    end
|}.

Definition decoding : Decoding := {|
  Decoded := bytes;
  decodeBase64 := fun s => Ok (String.list_byte_of_string s);
  decodeUTF8 := fun b => Ok (String.string_of_list_byte b)
|}.

End ToyEncrypt.

(** A session list for the machine screen, and a store in which the spawned
    session "s-2" shows up at the fourth read. *)
Module ToyScreen.
Import MachineDetailScreen.

Definition on (machine path : string) (id : string) : Session :=
  {| session_id := id;
     session_metadata :=
       Some {| metadata_path := path; metadata_machineId := Some machine |} |}.

Definition sessions : list SessionListItem :=
  [Title "Today";
   Item (on "m1" "/srv/web" "s-0");
   Item (on "m2" "/srv/api" "s-1");
   Item (on "m1" "/home/u/notes" "s-3");
   Title "Earlier";
   Item {| session_id := "s-4"; session_metadata := None |};
   Item (on "m1" "/srv/web" "s-5");
   Item (on "m1" EmptyString "s-6")].

Definition store (k : nat) : list Session :=
  if k <? 3 then [on "m1" "/srv/web" "s-0"]
  else [on "m1" "/srv/web" "s-0"; on "m1" "/srv/db" "s-2"].

End ToyScreen.

(** * Properties of encryptor.ts *)

Module EncryptorSpec.
Import Encryptor.
Section Schemes.
Context {Rng : Type} {LS : Libsodium Rng} {SO : Sodium} {B64 : Base64}
  {RN : RnEncryption} {JS : JSON}.

(** *** The loops, item by item *)

Lemma secretbox_decrypt_loop_ok (self : SecretBoxEncryption.t)
  (data : list bytes) (out acc : list JSValue) :
  Forall2 (fun c v =>
    decryptSecretBox c (SecretBoxEncryption.secretKey self) = Ok v) data out ->
  SecretBoxEncryption.decrypt_loop self data acc = Ok (acc ++ out).
Proof.
  intros Hall. revert acc.
  induction Hall as [|c v data out Hc _ IH]; intros acc; simpl.
  - by rewrite app_nil_r.
  - rewrite Hc. simpl. rewrite IH. by rewrite <- app_assoc.
Qed.

Lemma box_decrypt_loop_ok (self : BoxEncryption.t)
  (data : list bytes) (out acc : list JSValue) :
  Forall2 (fun c v =>
    decryptBox c (BoxEncryption.privateKey self) = Ok v) data out ->
  BoxEncryption.decrypt_loop self data acc = Ok (acc ++ out).
Proof.
  intros Hall. revert acc.
  induction Hall as [|c v data out Hc _ IH]; intros acc; simpl.
  - by rewrite app_nil_r.
  - rewrite Hc. simpl. rewrite IH. by rewrite <- app_assoc.
Qed.

(** One turn of the AES loop always leaves [results] one element longer. *)
Lemma aes_try_catch (self : AES256Encryption.t) (item : bytes)
  (results : list JSValue) :
  try_catch (AES256Encryption.decrypt_try self item results)
            (fun _ => mret (results ++ [JNull]))
  = Ok (results ++ [aes_item self item]).
Proof.
  unfold AES256Encryption.decrypt_try, aes_item.
  destruct (encodeBase64 item) as [b64|e]; simpl; [|done].
  destruct (crypto_decryptAES b64 _) as [[str|]|e]; simpl; [|done|done].
  destruct str as [|ch str]; simpl; [done|].
  by destruct (JSON_parse (String ch str)).
Qed.

Lemma aes_decrypt_loop_total (self : AES256Encryption.t) (data : list bytes)
  (acc : list JSValue) :
  AES256Encryption.decrypt_loop self data acc
  = Ok (acc ++ map (aes_item self) data).
Proof.
  revert acc. induction data as [|item rest IH]; intros acc; simpl.
  - by rewrite app_nil_r.
  - rewrite aes_try_catch. simpl. rewrite IH. by rewrite <- app_assoc.
Qed.

Lemma aes_failure_null (self : AES256Encryption.t) (item : bytes) :
  aes_failure self item -> aes_item self item = JNull.
Proof.
  unfold aes_item.
  destruct 1 as [e He|b64 e Hb He|b64 Hb Hn|b64 Hb Hn|b64 str e Hb Hs Hp];
    rewrite ?He, ?Hb; simpl; rewrite ?He, ?Hn, ?Hs; try done.
  destruct str; [done|]. by rewrite Hp.
Qed.

Lemma aes_decrypts_to_item (self : AES256Encryption.t) (item : bytes)
  (plain : JSValue) :
  decrypts_to (AES256 self) item plain -> aes_item self item = plain.
Proof.
  intros (b64 & str & Hb & Hs & Hne & Hp). unfold aes_item.
  rewrite Hb, Hs. destruct str; [done|]. by rewrite Hp.
Qed.


Lemma aes_items_pointwise (self : AES256Encryption.t) (data : list bytes)
  (out : list JSValue) :
  Forall2 (fun c v => aes_item self c = v) data out ->
  map (aes_item self) data = out.
Proof. induction 1 as [|c v data out Hc _ IH]; simpl; congruence. Qed.

Lemma secretbox_encrypt_loop_ok (self : SecretBoxEncryption.t)
  (data : list JSValue) (acc : list bytes) (rng : Rng) :
  Forall (secretbox_roundtrips (SecretBoxEncryption.secretKey self)) data ->
  exists cs rng',
    SecretBoxEncryption.encrypt_loop self data acc rng = (Ok (acc ++ cs), rng')
    /\ Forall2 (fun c v =>
         decryptSecretBox c (SecretBoxEncryption.secretKey self) = Ok v)
         cs data.
Proof.
  intros Hall. revert acc rng.
  induction Hall as [|x data Hx _ IH]; intros acc rng; simpl.
  - exists [], rng. by rewrite app_nil_r.
  - destruct (Hx rng) as (c & rng1 & Henc & Hdec). rewrite Henc.
    destruct (IH (acc ++ [c]) rng1) as (cs & rng2 & Hloop & Hcs).
    exists (c :: cs), rng2. rewrite Hloop, <- app_assoc.
    by split; [|constructor].
Qed.

Lemma box_encrypt_loop_ok (self : BoxEncryption.t)
  (data : list JSValue) (acc : list bytes) (rng : Rng) :
  Forall (box_roundtrips (BoxEncryption.publicKey self)
            (BoxEncryption.privateKey self)) data ->
  exists cs rng',
    BoxEncryption.encrypt_loop self data acc rng = (Ok (acc ++ cs), rng')
    /\ Forall2 (fun c v =>
         decryptBox c (BoxEncryption.privateKey self) = Ok v) cs data.
Proof.
  intros Hall. revert acc rng.
  induction Hall as [|x data Hx _ IH]; intros acc rng; simpl.
  - exists [], rng. by rewrite app_nil_r.
  - destruct (Hx rng) as (c & rng1 & Henc & Hdec). rewrite Henc.
    destruct (IH (acc ++ [c]) rng1) as (cs & rng2 & Hloop & Hcs).
    exists (c :: cs), rng2. rewrite Hloop, <- app_assoc.
    by split; [|constructor].
Qed.

(** The batch loops of the two libsodium schemes have no try/catch of their
    own: were a wrapper to throw on some item, the whole batch would reject. *)
Lemma secretbox_decrypt_throw_aborts (self : SecretBoxEncryption.t)
  (before after : list bytes) (item : bytes) (out : list JSValue)
  (e : JSError) :
  Forall2 (fun c v =>
    decryptSecretBox c (SecretBoxEncryption.secretKey self) = Ok v)
    before out ->
  decryptSecretBox item (SecretBoxEncryption.secretKey self) = Throw e ->
  SecretBoxEncryption.decrypt self (before ++ item :: after) = Throw e.
Proof.
  unfold SecretBoxEncryption.decrypt. generalize (@nil JSValue) as acc.
  intros acc Hall. revert acc.
  induction Hall as [|c v before out Hc _ IH]; intros acc Hthrow; simpl.
  - by rewrite Hthrow.
  - rewrite Hc. simpl. by apply IH.
Qed.

(** The corrupted batch, seen item by item. *)
Lemma corrupted_batch_pointwise {A B : Type} (P : A -> B -> Prop)
  (batch : list A) (plain : list B) (i : nat) (bad : A) (null : B) :
  length batch = length plain ->
  batch !! i = Some bad ->
  P bad null ->
  (forall j c p,
     j <> i -> batch !! j = Some c -> plain !! j = Some p -> P c p) ->
  Forall2 P batch (<[i:=null]> plain).
Proof.
  intros Hlen Hbad Hnull Hrest.
  apply Forall2_same_length_lookup. split; [by rewrite length_insert|].
  intros j c v Hc Hv. destruct (decide (j = i)) as [->|Hne].
  - rewrite list_lookup_insert_eq in Hv
      by (rewrite <- Hlen; by eapply lookup_lt_Some).
    congruence.
  - rewrite list_lookup_insert_ne in Hv by done. eauto.
Qed.

(** C2.  Round trip of the secret-box and the box scheme: for every sequence
    of plaintext items that the underlying libsodium wrapper round-trips one
    by one, [encrypt] succeeds whatever nonces are drawn, and [decrypt] of the
    resulting batch returns the original sequence, item for item and in
    order.  The box scheme encrypts to the public key and decrypts with the
    private key of the pair its constructor derived from the seed. *)
Theorem encrypt_decrypt_roundtrip (secretBox : SecretBoxEncryption.t)
  (seed : bytes) (box : BoxEncryption.t) (items : list JSValue) (rng : Rng) :
  Forall (secretbox_roundtrips (SecretBoxEncryption.secretKey secretBox))
    items ->
  BoxEncryption.new seed = Ok box ->
  Forall (box_roundtrips (BoxEncryption.publicKey box)
            (BoxEncryption.privateKey box)) items ->
  (exists cs rng',
      SecretBoxEncryption.encrypt secretBox items rng = (Ok cs, rng') /\
      SecretBoxEncryption.decrypt secretBox cs = Ok items) /\
  (exists cs rng',
      BoxEncryption.encrypt box items rng = (Ok cs, rng') /\
      BoxEncryption.decrypt box cs = Ok items).
Proof.
  intros Hsb _ Hbox. split.
  - destruct (secretbox_encrypt_loop_ok secretBox items [] rng Hsb)
      as (cs & rng' & Henc & Hdec).
    exists cs, rng'. split; [exact Henc|].
    by apply (secretbox_decrypt_loop_ok secretBox cs items []).
  - destruct (box_encrypt_loop_ok box items [] rng Hbox)
      as (cs & rng' & Henc & Hdec).
    exists cs, rng'. split; [exact Henc|].
    by apply (box_decrypt_loop_ok box cs items []).
Qed.

(** C5.  A batch of N ciphertexts in which the item at position [i] fails to
    decrypt and every other item is a ciphertext of the plaintext at its
    position: [decrypt] returns N results, [null] at position [i] and the
    original plaintext everywhere else, for each of the three schemes.  When
    no original plaintext is itself [null], position [i] is the only one
    holding [null]. *)
Theorem decrypt_one_corrupted (scheme : Scheme) (batch : list bytes)
  (plain : list JSValue) (i : nat) (bad : bytes) :
  length batch = length plain ->
  batch !! i = Some bad ->
  decrypt_fails scheme bad ->
  (forall j c p, j <> i -> batch !! j = Some c -> plain !! j = Some p ->
                 decrypts_to scheme c p) ->
  exists results,
    decrypt scheme batch = Ok results /\
    results = <[i:=JNull]> plain /\
    length results = length batch /\
    results !! i = Some JNull /\
    (forall j, j <> i -> results !! j = plain !! j) /\
    (Forall (fun p => p <> JNull) plain ->
     forall j, results !! j = Some JNull -> j = i).
Proof.
  intros Hlen Hbad Hfail Hrest.
  assert (Hi : i < length plain)
    by (rewrite <- Hlen; by eapply lookup_lt_Some).
  exists (<[i:=JNull]> plain). split; [|split; [done|]].
  - destruct scheme as [self|self|self]; simpl in *.
    + apply (secretbox_decrypt_loop_ok self batch _ []).
      by eapply corrupted_batch_pointwise.
    + apply (box_decrypt_loop_ok self batch _ []).
      by eapply corrupted_batch_pointwise.
    + unfold AES256Encryption.decrypt. rewrite aes_decrypt_loop_total. simpl.
      f_equal. apply aes_items_pointwise.
      eapply (corrupted_batch_pointwise (fun c v => aes_item self c = v));
        [done|done|by apply aes_failure_null|].
      intros j c p Hj Hc Hp. apply aes_decrypts_to_item.
      exact (Hrest j c p Hj Hc Hp).
  - split; [by rewrite length_insert|].
    split; [by apply list_lookup_insert_eq|].
    split; [intros j Hj; by apply list_lookup_insert_ne|].
    intros Hnonnull j Hj. destruct (decide (j = i)) as [|Hne]; [done|].
    rewrite list_lookup_insert_ne in Hj by done.
    rewrite Forall_lookup in Hnonnull. by destruct (Hnonnull j JNull Hj).
Qed.

(** C6.  [AES256Encryption.decrypt] never throws out of the batch call:
    whatever the imported primitives do, it returns one result per input
    item, in order.  An item on which base64 encoding or decryption throws
    (malformed ciphertext, tag mismatch, non-text plaintext), whose decrypted
    text is null or empty, or whose text is not JSON, contributes [null]; an
    item that decrypts to non-empty JSON text contributes the parsed value. *)
Theorem aes_decrypt_never_throws (self : AES256Encryption.t)
  (data : list bytes) :
  exists results,
    AES256Encryption.decrypt self data = Ok results /\
    results = map (aes_item self) data /\
    length results = length data /\
    forall i item, data !! i = Some item ->
      (aes_failure self item -> results !! i = Some JNull) /\
      (forall plain, decrypts_to (AES256 self) item plain ->
                     results !! i = Some plain).
Proof.
  exists (map (aes_item self) data).
  split; [apply (aes_decrypt_loop_total self data [])|].
  split; [done|]. split; [by rewrite length_map|].
  intros i item Hitem. rewrite list_lookup_fmap, Hitem. simpl.
  split.
  - intros Hfail. by rewrite aes_failure_null.
  - intros plain Hplain. by rewrite (aes_decrypts_to_item self item plain).
Qed.

End Schemes.

Section Witnesses.
Local Existing Instances Toy.libsodium Toy.sodium Toy.base64 Toy.rnEncryption
  Toy.json.

Lemma encrypt_decrypt_roundtrip_witness :
  (exists cs rng',
      SecretBoxEncryption.encrypt Toy.secretBox Toy.items 5 = (Ok cs, rng') /\
      SecretBoxEncryption.decrypt Toy.secretBox cs = Ok Toy.items) /\
  (exists cs rng',
      BoxEncryption.encrypt Toy.box Toy.items 5 = (Ok cs, rng') /\
      BoxEncryption.decrypt Toy.box cs = Ok Toy.items).
Proof.
  apply (encrypt_decrypt_roundtrip Toy.secretBox Toy.key Toy.box Toy.items 5).
  - unfold Toy.items.
    repeat (apply List.Forall_cons;
            [intros rng; eexists _, _; split; reflexivity|]).
    apply List.Forall_nil.
  - reflexivity.
  - unfold Toy.items.
    repeat (apply List.Forall_cons;
            [intros rng; eexists _, _; split; reflexivity|]).
    apply List.Forall_nil.
Defined.

Lemma decrypt_one_corrupted_witness :
  decrypt (SecretBox Toy.secretBox) Toy.corrupted_secretbox_batch
    = Ok [JStr "ls -la"; JNull; JStr "done"] /\
  decrypt (Box Toy.box) Toy.corrupted_box_batch
    = Ok [JStr "ls -la"; JNull; JStr "done"] /\
  decrypt (AES256 Toy.aes) Toy.corrupted_aes_batch
    = Ok [JBool true; JNull; JNum 7].
Proof.
  split; [|split].
  - destruct (decrypt_one_corrupted (SecretBox Toy.secretBox)
                Toy.corrupted_secretbox_batch Toy.items 1
                (Toy.sealed (JBool true) Toy.wrong_key 6))
      as (results & Hrun & -> & _);
      [reflexivity|reflexivity|reflexivity| |exact Hrun].
    intros [|[|[|j]]] c p Hj Hc Hp; vm_compute in Hc, Hp; simplify_eq;
      reflexivity.
  - destruct (decrypt_one_corrupted (Box Toy.box)
                Toy.corrupted_box_batch Toy.items 1
                (Toy.sealed (JBool true) Toy.key 6))
      as (results & Hrun & -> & _);
      [reflexivity|reflexivity|reflexivity| |exact Hrun].
    intros [|[|[|j]]] c p Hj Hc Hp; vm_compute in Hc, Hp; simplify_eq;
      reflexivity.
  - destruct (decrypt_one_corrupted (AES256 Toy.aes)
                Toy.corrupted_aes_batch Toy.aes_plain 1
                (String.list_byte_of_string "k2false"))
      as (results & Hrun & -> & _); [reflexivity|reflexivity| | |exact Hrun].
    + by eapply aes_decrypt_throws.
    + intros [|[|[|j]]] c p Hj Hc Hp; vm_compute in Hc, Hp; simplify_eq;
        eexists _, _;
        (split; [reflexivity|split; [reflexivity|split; [done|reflexivity]]]).
Defined.

(** The toy AES path on a batch holding, in order: a valid item, an item
    under another key, an item with empty text, one whose text is not JSON,
    and another valid item. *)
Example aes_decrypt_mixed_batch :
  AES256Encryption.decrypt Toy.aes
    (map String.list_byte_of_string ["k1true"; "k2true"; "k1"; "k1{"; "k17"])
  = Ok [JBool true; JNull; JNull; JNull; JNum 7].
Proof. reflexivity. Qed.

End Witnesses.

End EncryptorSpec.

(** * Properties of ApiSocket *)

Module ApiSocketSpec.
Import ApiSocket.
Section WithApiEncryption.
Context {AE : ApiEncryptionModule}.

(** ** Running method bodies *)

Lemma run_bind {A B : Type} (m : M A) (f : A -> M B) (st : State) :
  (m ≫= f) st =
  match m st with
  | (Resolved a, st', t) =>
      match f a st' with
      | (r, st'', t') => (r, st'', t ++ t')
      end
  | (Rejected e, st', t) => (Rejected e, st', t)
  | (Pending, st', t) => (Pending, st', t)
  end.
Proof. reflexivity. Qed.

Lemma run_perform (e : Effect) (st : State) :
  perform e st = (Resolved tt, st, [e]).
Proof. reflexivity. Qed.

(** Unfolds the sequencing of a method body applied to a state. *)
Ltac run_M :=
  repeat (progress (unfold mbind, M_bind, mret, M_ret, get, modify, throw,
                    nonnull, lift; simpl)).

Lemma run_forEach_perform (s : list Callback) (g : Callback -> Effect)
  (st : State) :
  forEach s (fun listener => perform (g listener)) st
  = (Resolved tt, st, map g s).
Proof.
  induction s as [|l s IH]; [reflexivity|].
  simpl. run_M. by rewrite IH.
Qed.

Lemma run_updateStatus (status : Status) (st : State) :
  updateStatus status st =
  if decide (currentStatus st <> status)
  then (Resolved tt, set_currentStatus status st,
        map (fun l => StatusListenerCall l status) (statusListeners st))
  else (Resolved tt, st, []).
Proof.
  unfold updateStatus. run_M.
  destruct (decide (currentStatus st <> status)); [|reflexivity].
  run_M. by rewrite run_forEach_perform.
Qed.

Lemma run_on_connect (st : State) :
  on_connect st =
  (Resolved tt,
   (if decide (currentStatus st <> connected)
    then set_currentStatus connected st else st),
   (if decide (currentStatus st <> connected)
    then map (fun l => StatusListenerCall l connected) (statusListeners st)
    else []) ++
   (if from_option recovered false (socket st) then []
    else map ReconnectedListenerCall (reconnectedListeners st))).
Proof.
  unfold on_connect. rewrite run_bind, run_updateStatus.
  destruct (decide (currentStatus st <> connected)); run_M;
    destruct (from_option recovered false (socket st)); run_M;
    rewrite ?run_forEach_perform; by rewrite ?app_nil_r.
Qed.

(** [rpc] once the socket and the encryption context are there and the
    params are encrypted. *)
Lemma run_rpc_emitted (st : State) (sock : Socket) (enc : ApiEncryption)
  (c : Ciphertext) (sessionId method_ : string) (params_ : JSValue)
  (ack : Ack) :
  socket st = Some sock -> encryption st = Some enc ->
  encryptRaw enc params_ = Ok c ->
  rpc sessionId method_ params_ ack st =
  (match ack with
   | Acked response =>
       if ok response then
         match decryptRaw enc (result response) with
         | Ok v => Resolved v
         | Throw e => Rejected e
         end
       else Rejected (Error "RPC call failed")
   | NoAck => Pending
   end,
   st,
   [EmitWithAck None "rpc-call"
      {| method := sessionId +:+ ":" +:+ method_; params := c |}]).
Proof.
  intros Hsock Henc Hc. unfold rpc, emitWithAck. run_M.
  rewrite Hsock, Henc. run_M. rewrite Hc. run_M.
  destruct ack as [response|]; run_M; [|reflexivity].
  destruct (ok response); run_M; [|reflexivity].
  rewrite Henc. by destruct (decryptRaw enc (result response)).
Qed.

(** [daemonRpc] once both preconditions hold. *)
Lemma run_daemonRpc_called (st : State) (sock : Socket) (enc : ApiEncryption)
  (machineId method_ : string) (params_ : JSValue) (ack : Ack) :
  socket st = Some sock -> encryption st = Some enc ->
  let scoped := machineId +:+ ":" +:+ method_ in
  let calling :=
    ConsoleLog ("🔌 DaemonRPC: Calling " +:+ scoped) (LogValue params_) in
  let failed := ConsoleError ("🔌 DaemonRPC: Error for " +:+ scoped) in
  daemonRpc machineId method_ params_ ack st =
  match encryptRaw enc params_ with
  | Throw e => (Rejected e, st, [calling; failed e])
  | Ok c =>
      let emitted :=
        EmitWithAck (Some 15000%Z) "rpc-call"
          {| method := scoped; params := c |} in
      match ack with
      | NoAck =>
          (Rejected timeout_error, st,
           [calling; emitted; failed timeout_error])
      | Acked response =>
          let answered :=
            ConsoleLog ("🔌 DaemonRPC: Response for " +:+ scoped)
              (LogResponse response) in
          if ok response then
            match decryptRaw enc (result response) with
            | Ok v => (Resolved v, st, [calling; emitted; answered])
            | Throw e =>
                (Rejected e, st, [calling; emitted; answered; failed e])
            end
          else
            let e := Error (js_or_string (error_ response)
                              "Daemon RPC call failed") in
            (Rejected e, st, [calling; emitted; answered; failed e])
      end
  end.
Proof.
  intros Hsock Henc. unfold daemonRpc, emitWithAck, try_catch_M. run_M.
  rewrite Hsock, Henc. run_M.
  destruct (encryptRaw enc params_) as [c|e]; run_M; [|reflexivity].
  destruct ack as [response|]; run_M; [|reflexivity].
  destruct (ok response); run_M; [|reflexivity].
  by destruct (decryptRaw enc (result response)).
Qed.

(** [rpc] when a precondition is missing: the property read from [null]. *)
Lemma run_rpc_null (st : State) (sessionId method_ : string)
  (params_ : JSValue) (ack : Ack) :
  socket st = None \/ encryption st = None ->
  rpc sessionId method_ params_ ack st =
  (Rejected (TypeError_null
     match socket st with
     | None => "emitWithAck"
     | Some _ => "encryptRaw"
     end), st, []).
Proof.
  intros Hnull. unfold rpc. run_M.
  destruct (socket st) as [sock|]; run_M; [|reflexivity].
  destruct Hnull as [?|Henc]; [done|]. by rewrite Henc.
Qed.

Lemma run_rpc_encrypt_throws (st : State) (sock : Socket)
  (enc : ApiEncryption) (e : JSError) (sessionId method_ : string)
  (params_ : JSValue) (ack : Ack) :
  socket st = Some sock -> encryption st = Some enc ->
  encryptRaw enc params_ = Throw e ->
  rpc sessionId method_ params_ ack st = (Rejected e, st, []).
Proof.
  intros Hsock Henc He. unfold rpc. run_M.
  rewrite Hsock, Henc. run_M. by rewrite He.
Qed.

Lemma run_daemonRpc_null (st : State) (machineId method_ : string)
  (params_ : JSValue) (ack : Ack) :
  socket st = None \/ encryption st = None ->
  daemonRpc machineId method_ params_ ack st =
  (Rejected (Error
     match socket st with
     | None => "Socket not connected"
     | Some _ => "Encryption not initialized"
     end), st, []).
Proof.
  intros Hnull. unfold daemonRpc. run_M.
  destruct (socket st) as [sock|]; run_M; [|reflexivity].
  destruct Hnull as [?|Henc]; [done|]. by rewrite Henc.
Qed.

(** ** The RPC calls *)

(** C1.  Whatever [rpc] or [daemonRpc] sends to the server is one
    acknowledged 'rpc-call' whose [params] field is the result of
    [encryptRaw] on the caller's params (and whose [method] is the scope id,
    a colon and the method name).  Nothing else goes on the wire, and nothing
    at all when [encryptRaw] fails. *)
Theorem rpc_params_cross_encrypted (st : State) (scope method_ : string)
  (params_ : JSValue) (ack : Ack) (e : Effect) :
  e ∈ effects (rpc scope method_ params_ ack) st \/
  e ∈ effects (daemonRpc scope method_ params_ ack) st ->
  on_the_wire e = true ->
  exists enc c timeout,
    encryption st = Some enc /\
    encryptRaw enc params_ = Ok c /\
    e = EmitWithAck timeout "rpc-call"
          {| method := scope +:+ ":" +:+ method_; params := c |}.
Proof.
  intros Hin Hwire. unfold effects in Hin.
  destruct (socket st) as [sock|] eqn:Hsock;
    [destruct (encryption st) as [enc|] eqn:Henc|].
  - destruct (encryptRaw enc params_) as [c|err] eqn:Hc.
    + exists enc, c. destruct Hin as [Hin|Hin].
      * rewrite (run_rpc_emitted st sock enc c) in Hin by done.
        simpl in Hin. apply list_elem_of_singleton in Hin. eauto.
      * rewrite (run_daemonRpc_called st sock enc) in Hin by done.
        rewrite Hc in Hin.
        destruct ack as [response|]; [destruct (ok response);
          [destruct (decryptRaw enc (result response))|]|];
          simpl in Hin; set_unfold in Hin;
          repeat (destruct Hin as [->|Hin]; [try discriminate; eauto|]);
          try done; subst e; try discriminate; eauto.
    + destruct Hin as [Hin|Hin].
      * rewrite (run_rpc_encrypt_throws st sock enc err) in Hin by done.
        by apply elem_of_nil in Hin.
      * rewrite (run_daemonRpc_called st sock enc) in Hin by done.
        rewrite Hc in Hin. simpl in Hin. set_unfold in Hin.
        destruct Hin as [->|[->|[]]]; discriminate.
  - destruct Hin as [Hin|Hin].
    + rewrite run_rpc_null in Hin by auto. by apply elem_of_nil in Hin.
    + rewrite run_daemonRpc_null in Hin by auto. by apply elem_of_nil in Hin.
  - destruct Hin as [Hin|Hin].
    + rewrite run_rpc_null in Hin by auto. by apply elem_of_nil in Hin.
    + rewrite run_daemonRpc_null in Hin by auto. by apply elem_of_nil in Hin.
Qed.

(** C3, as the code has it.  When the server answers a call that reached the
    wire with [ok: false]: [daemonRpc] fails with an [Error] whose message is
    the server's [error] string when that is present and not empty, and
    'Daemon RPC call failed' otherwise; [rpc] fails with the fixed message
    'RPC call failed', whatever the response's [error] field holds. *)
Theorem rpc_failure_message (st : State) (sock : Socket)
  (enc : ApiEncryption) (c : Ciphertext) (scope method_ : string)
  (params_ : JSValue) (response : RpcResponse) :
  socket st = Some sock -> encryption st = Some enc ->
  encryptRaw enc params_ = Ok c ->
  ok response = false ->
  (forall message, error_ response = Some message -> message <> EmptyString ->
     outcome (daemonRpc scope method_ params_ (Acked response)) st
     = Rejected (Error message)) /\
  (error_ response = None \/ error_ response = Some EmptyString ->
     outcome (daemonRpc scope method_ params_ (Acked response)) st
     = Rejected (Error "Daemon RPC call failed")) /\
  outcome (rpc scope method_ params_ (Acked response)) st
  = Rejected (Error "RPC call failed").
Proof.
  intros Hsock Henc Hc Hok. unfold outcome.
  rewrite (run_daemonRpc_called st sock enc), Hc, Hok by done.
  rewrite (run_rpc_emitted st sock enc c), Hok by done. simpl.
  split; [|split; [|done]].
  - intros message -> Hne. by destruct message.
  - by intros [->| ->].
Qed.


(** C10.  [rpc] has no precondition check.  Called without a socket or
    without an encryption context it fails with the TypeError of a property
    read from [null] ([emitWithAck] of the socket, else [encryptRaw] of the
    encryption context), having sent nothing; [daemonRpc] in the same state
    fails with one of its two descriptive [Error]s instead. *)
Theorem rpc_unguarded (st : State) (scope method_ : string)
  (params_ : JSValue) (ack : Ack) :
  socket st = None \/ encryption st = None ->
  effects (rpc scope method_ params_ ack) st = [] /\
  (socket st = None ->
     outcome (rpc scope method_ params_ ack) st
     = Rejected (TypeError_null "emitWithAck")) /\
  (socket st <> None ->
     outcome (rpc scope method_ params_ ack) st
     = Rejected (TypeError_null "encryptRaw")) /\
  (exists message,
     outcome (daemonRpc scope method_ params_ ack) st
     = Rejected (Error message)).
Proof.
  intros Hnull. unfold effects, outcome.
  rewrite run_rpc_null, run_daemonRpc_null by done. simpl.
  split; [done|]. destruct (socket st); repeat split; intros; try done; eauto.
Qed.

(** ** The listener sets stay sets *)

Lemma NoDup_Set_add (x : Callback) (s : list Callback) :
  NoDup s -> NoDup (Set_add x s).
Proof.
  intros Hs. unfold Set_add. destruct (decide (x ∈ s)) as [|Hx]; [done|].
  apply NoDup_app. split; [done|]. split; [|apply NoDup_singleton].
  intros y Hy Hyx. apply list_elem_of_singleton in Hyx. by subst.
Qed.

Lemma NoDup_Set_delete (x : Callback) (s : list Callback) :
  NoDup s -> NoDup (Set_delete x s).
Proof. apply NoDup_filter. Qed.

Lemma elem_of_Set_add (x : Callback) (s : list Callback) : x ∈ Set_add x s.
Proof.
  unfold Set_add. destruct (decide (x ∈ s)); [done|].
  apply elem_of_app. right. by apply list_elem_of_singleton.
Qed.

Section Preservation.
Variable P : State -> Prop.

Lemma preserves_ret {A : Type} (a : A) : preserves P (mret a).
Proof. by intros st. Qed.

Lemma preserves_bind {A B : Type} (m : M A) (f : A -> M B) :
  preserves P m -> (forall a, preserves P (f a)) -> preserves P (m ≫= f).
Proof.
  intros Hm Hf st HP. specialize (Hm st HP). unfold state_after in *.
  rewrite run_bind. destruct (m st) as [[[a|e|] st1] t1]; simpl in *; try done.
  specialize (Hf a st1 Hm). unfold state_after in Hf.
  by destruct (f a st1) as [[r st2] t2].
Qed.

Lemma preserves_get : preserves P get.
Proof. by intros st. Qed.

Lemma preserves_perform (e : Effect) : preserves P (perform e).
Proof. by intros st. Qed.

Lemma preserves_throw {A : Type} (e : JSError) : preserves P (throw (A:=A) e).
Proof. by intros st. Qed.

Lemma preserves_lift {A : Type} (r : Result A) : preserves P (lift r).
Proof. destruct r; by intros st. Qed.

Lemma preserves_nonnull {A : Type} (o : option A) (property : string) :
  preserves P (nonnull o property).
Proof. destruct o; by intros st. Qed.

Lemma preserves_modify (f : State -> State) :
  (forall st, P st -> P (f st)) -> preserves P (modify f).
Proof. intros Hf st HP. by apply Hf. Qed.

Lemma preserves_try_catch {A : Type} (body : M A) (handler : JSError -> M A) :
  preserves P body -> (forall e, preserves P (handler e)) ->
  preserves P (try_catch_M body handler).
Proof.
  intros Hb Hh st HP. specialize (Hb st HP).
  unfold state_after, try_catch_M in *.
  destruct (body st) as [[[a|e|] st1] t1]; simpl in *; try done.
  specialize (Hh e st1 Hb). unfold state_after in Hh.
  by destruct (handler e st1) as [[r st2] t2].
Qed.

Lemma preserves_forEach (s : list Callback) (call : Callback -> M unit) :
  (forall l, preserves P (call l)) -> preserves P (forEach s call).
Proof.
  intros Hcall. induction s as [|l s IH]; simpl.
  - apply preserves_ret.
  - apply preserves_bind; [apply Hcall|]. by intros _.
Qed.

Lemma preserves_emitWithAck (timeout : option Z) (event : string)
  (payload : RpcCall) (ack : Ack) :
  preserves P (emitWithAck timeout event payload ack).
Proof.
  unfold emitWithAck. apply preserves_bind; [apply preserves_perform|].
  intros _. destruct ack, timeout; by intros st.
Qed.

End Preservation.

(** Splits a method body into its steps; what is left are the [modify]s. *)
Ltac preserves_steps :=
  repeat lazymatch goal with
    | |- preserves _ (mret _) => apply preserves_ret
    | |- preserves _ get => apply preserves_get
    | |- preserves _ (perform _) => apply preserves_perform
    | |- preserves _ (throw _) => apply preserves_throw
    | |- preserves _ (lift _) => apply preserves_lift
    | |- preserves _ (nonnull _ _) => apply preserves_nonnull
    | |- preserves _ (emitWithAck _ _ _ _) => apply preserves_emitWithAck
    | |- preserves _ (_ ≫= _) => apply preserves_bind; [|intros ?]
    | |- preserves _ (try_catch_M _ _) =>
        apply preserves_try_catch; [|intros ?]
    | |- preserves _ (forEach _ _) => apply preserves_forEach; intros ?
    | |- preserves _ (modify _) => apply preserves_modify
    | |- preserves _ (match ?x with _ => _ end) => destruct x
    end.

Lemma wf_set_socket (v : option Socket) (st : State) :
  listener_sets_wf st -> listener_sets_wf (set_socket v st).
Proof. done. Qed.

Lemma wf_set_config (v : option SyncSocketConfig) (st : State) :
  listener_sets_wf st -> listener_sets_wf (set_config v st).
Proof. done. Qed.

Lemma wf_set_encryption (v : option ApiEncryption) (st : State) :
  listener_sets_wf st -> listener_sets_wf (set_encryption v st).
Proof. done. Qed.

Lemma wf_set_messageHandlers (v : gmap string Callback) (st : State) :
  listener_sets_wf st -> listener_sets_wf (set_messageHandlers v st).
Proof. done. Qed.

Lemma wf_set_currentStatus (v : Status) (st : State) :
  listener_sets_wf st -> listener_sets_wf (set_currentStatus v st).
Proof. done. Qed.

Lemma wf_updateStatus (status : Status) :
  preserves listener_sets_wf (updateStatus status).
Proof.
  unfold updateStatus. preserves_steps; auto using wf_set_currentStatus.
Qed.

Lemma wf_setupEventHandlers : preserves listener_sets_wf setupEventHandlers.
Proof.
  unfold setupEventHandlers. preserves_steps; auto using wf_set_socket.
Qed.

Lemma wf_connect : preserves listener_sets_wf connect.
Proof.
  unfold connect. preserves_steps;
    auto using wf_set_socket, wf_updateStatus, wf_setupEventHandlers.
Qed.

Lemma wf_disconnect : preserves listener_sets_wf disconnect.
Proof.
  unfold disconnect. preserves_steps;
    auto using wf_set_socket, wf_updateStatus.
Qed.

Lemma wf_on_connect : preserves listener_sets_wf on_connect.
Proof. unfold on_connect. preserves_steps; auto using wf_updateStatus. Qed.

Lemma wf_set_reconnectedListeners (v : list Callback) (st : State) :
  NoDup v -> listener_sets_wf st ->
  listener_sets_wf (set_reconnectedListeners v st).
Proof. intros Hv [_ Hs]. by split. Qed.

Lemma wf_set_statusListeners (v : list Callback) (st : State) :
  NoDup v -> listener_sets_wf st ->
  listener_sets_wf (set_statusListeners v st).
Proof. intros Hv [Hr _]. by split. Qed.

Lemma wf_initialize (cfg : SyncSocketConfig) (enc : ApiEncryption) :
  preserves listener_sets_wf (initialize cfg enc).
Proof.
  unfold initialize. preserves_steps;
    auto using wf_set_config, wf_set_encryption, wf_connect.
Qed.

Lemma wf_onReconnected (l : Callback) :
  preserves listener_sets_wf (onReconnected l).
Proof.
  unfold onReconnected. preserves_steps. intros st Hwf.
  apply wf_set_reconnectedListeners; [|done].
  apply NoDup_Set_add, Hwf.
Qed.

Lemma wf_onReconnected_unsubscribe (l : Callback) :
  preserves listener_sets_wf (onReconnected_unsubscribe l).
Proof.
  unfold onReconnected_unsubscribe. preserves_steps. intros st Hwf.
  apply wf_set_reconnectedListeners; [|done].
  apply NoDup_Set_delete, Hwf.
Qed.

Lemma wf_onStatusChange (l : Callback) :
  preserves listener_sets_wf (onStatusChange l).
Proof.
  unfold onStatusChange. preserves_steps. intros st Hwf.
  apply wf_set_statusListeners; [|done].
  apply NoDup_Set_add, Hwf.
Qed.

Lemma wf_onStatusChange_unsubscribe (l : Callback) :
  preserves listener_sets_wf (onStatusChange_unsubscribe l).
Proof.
  unfold onStatusChange_unsubscribe. preserves_steps. intros st Hwf.
  apply wf_set_statusListeners; [|done].
  apply NoDup_Set_delete, Hwf.
Qed.

Lemma wf_rpc (scope method_ : string) (params_ : JSValue) (ack : Ack) :
  preserves listener_sets_wf (rpc scope method_ params_ ack).
Proof. unfold rpc. preserves_steps. Qed.

Lemma wf_daemonRpc (scope method_ : string) (params_ : JSValue) (ack : Ack) :
  preserves listener_sets_wf (daemonRpc scope method_ params_ ack).
Proof. unfold daemonRpc. preserves_steps. Qed.

Lemma wf_send (event : string) (data : JSValue) :
  preserves listener_sets_wf (send event data).
Proof. unfold send. preserves_steps. Qed.

Lemma wf_updateToken (newToken : string) :
  preserves listener_sets_wf (updateToken newToken).
Proof.
  unfold updateToken. preserves_steps;
    auto using wf_set_config, wf_disconnect, wf_connect.
Qed.

Lemma wf_deliver (ev : SocketEvent) : preserves listener_sets_wf (deliver ev).
Proof.
  unfold deliver, on_disconnect, on_connect_error, on_error, on_auth, on_any.
  preserves_steps; auto using wf_set_socket, wf_on_connect, wf_updateStatus.
Qed.

Lemma wf_run_call (c : Call) (st : State) :
  listener_sets_wf st -> listener_sets_wf (run_call c st).1.
Proof.
  destruct c; simpl.
  - apply wf_initialize.
  - apply wf_connect.
  - apply wf_disconnect.
  - apply wf_onReconnected.
  - apply wf_onReconnected_unsubscribe.
  - apply wf_onStatusChange.
  - apply wf_onStatusChange_unsubscribe.
  - unfold onMessage. by apply preserves_modify.
  - unfold onMessage_unsubscribe. by apply preserves_modify.
  - unfold offMessage. by apply preserves_modify.
  - apply wf_rpc.
  - apply wf_daemonRpc.
  - apply wf_send.
  - apply wf_updateToken.
  - apply wf_deliver.
Qed.

(** Every state the singleton can reach keeps its listener sets free of
    duplicates. *)
Lemma Reachable_wf (st : State) : Reachable st -> listener_sets_wf st.
Proof.
  induction 1 as [|st c _ IH].
  - split; apply NoDup_nil_2.
  - by apply wf_run_call.
Qed.

Lemma Reachable_run_calls (cs : list Call) (st : State) :
  Reachable st -> Reachable (run_calls cs st).1.
Proof.
  revert st. induction cs as [|c cs IH]; intros st Hst; simpl; [done|].
  specialize (IH (run_call c st).1 (Reachable_call st c Hst)).
  destruct (run_call c st) as [st1 t1]. simpl in IH.
  by destruct (run_calls cs st1) as [st2 t2].
Qed.

(** ** No socket before [initialize] *)

Lemma run_connect (st : State) :
  connect st =
  match config st, socket st with
  | Some cfg, None =>
      (Resolved tt,
       set_socket (Some {| recovered := false; handlersInstalled := true |})
         (if decide (currentStatus st <> connecting)
          then set_currentStatus connecting st else st),
       (if decide (currentStatus st <> connecting)
        then map (fun l => StatusListenerCall l connecting) (statusListeners st)
        else []) ++ [IoConnect (endpoint cfg) (io_options cfg)])
  | _, _ => (Resolved tt, st, [])
  end.
Proof.
  unfold connect. run_M.
  destruct (config st) as [cfg|]; [|reflexivity].
  destruct (socket st); [reflexivity|].
  rewrite run_updateStatus. unfold setupEventHandlers.
  destruct (decide (currentStatus st <> connecting)); run_M;
    by rewrite ?app_nil_r.
Qed.

Lemma run_disconnect (st : State) :
  disconnect st =
  let st1 := if socket st is Some _ then set_socket None st else st in
  (Resolved tt,
   (if decide (currentStatus st <> disconnected)
    then set_currentStatus disconnected st1 else st1),
   (if socket st is Some _ then [SocketDisconnect] else []) ++
   (if decide (currentStatus st <> disconnected)
    then map (fun l => StatusListenerCall l disconnected) (statusListeners st)
    else [])).
Proof.
  unfold disconnect. rewrite run_bind. run_M.
  destruct (socket st); run_M; rewrite run_updateStatus; simpl.
  all: destruct (decide (currentStatus st <> disconnected)); reflexivity.
Qed.

Lemma initialized_connect : preserves initialized_if_connected connect.
Proof.
  intros st Hinit. unfold state_after. rewrite run_connect.
  destruct (config st) as [cfg|] eqn:Hc; [|exact Hinit].
  destruct (socket st) eqn:Hs; [exact Hinit|].
  destruct Hinit as [_ Hcfg]. rewrite Hc in Hcfg.
  destruct (decide (currentStatus st <> connecting)); split; simpl;
    intros _; rewrite ?Hc; auto.
Qed.

Lemma initialized_disconnect : preserves initialized_if_connected disconnect.
Proof.
  intros st Hinit. unfold state_after. rewrite run_disconnect. simpl.
  destruct (socket st) eqn:Hs;
    destruct (decide (currentStatus st <> disconnected)); simpl;
    try exact Hinit; destruct Hinit as [_ Hcfg];
    (split; simpl; [by intros [? [=]]|done]).
Qed.

Lemma keeps_connection_initialized {A : Type} (m : M A) :
  keeps_connection m -> preserves initialized_if_connected m.
Proof.
  intros Hm. apply (Hm (fun s c e =>
    (is_Some s -> is_Some c) /\ (is_Some c -> is_Some e))).
Qed.

Lemma keeps_connection_updateStatus (status : Status) :
  keeps_connection (updateStatus status).
Proof. intros P. unfold updateStatus. by preserves_steps. Qed.

Lemma state_after_initialize (cfg : SyncSocketConfig) (enc : ApiEncryption)
  (st : State) :
  state_after (initialize cfg enc) st
  = state_after connect (set_encryption (Some enc) (set_config (Some cfg) st)).
Proof.
  unfold state_after, initialize. run_M.
  by destruct (connect _) as [[r st1] t1].
Qed.

Lemma initialized_updateToken (newToken : string) :
  preserves initialized_if_connected (updateToken newToken).
Proof.
  intros st Hinit. unfold state_after, updateToken. run_M.
  destruct (config st) as [cfg|] eqn:Hc; [|exact Hinit].
  destruct (decide (token cfg <> newToken)); [|exact Hinit]. run_M.
  set (st0 := set_config
         (Some {| endpoint := endpoint cfg; token := newToken |}) st).
  assert (Hst0 : initialized_if_connected st0).
  { destruct Hinit as [_ Hcfg]. rewrite Hc in Hcfg.
    split; simpl; intros _; [by eexists|apply Hcfg; by eexists]. }
  destruct (socket st) eqn:Hs; [|exact Hst0].
  pose proof (initialized_disconnect st0 Hst0) as Hd.
  unfold state_after in Hd.
  destruct (disconnect st0) as [[[[]|e|] st1] t1]; simpl in *; try exact Hd.
  pose proof (initialized_connect st1 Hd) as Hcn. unfold state_after in Hcn.
  by destruct (connect st1) as [[r2 st2] t2].
Qed.

Lemma initialized_run_call (c : Call) (st : State) :
  initialized_if_connected st -> initialized_if_connected (run_call c st).1.
Proof.
  destruct c; simpl.
  - intros _. unfold ignore. simpl. rewrite state_after_initialize.
    apply initialized_connect. split; intros _; by eexists.
  - apply initialized_connect.
  - apply initialized_disconnect.
  - apply keeps_connection_initialized. intros P.
    unfold onReconnected. by preserves_steps.
  - apply keeps_connection_initialized. intros P.
    unfold onReconnected_unsubscribe. by preserves_steps.
  - apply keeps_connection_initialized. intros P.
    unfold onStatusChange. by preserves_steps.
  - apply keeps_connection_initialized. intros P.
    unfold onStatusChange_unsubscribe. by preserves_steps.
  - apply keeps_connection_initialized. intros P.
    unfold onMessage. by preserves_steps.
  - apply keeps_connection_initialized. intros P.
    unfold onMessage_unsubscribe. by preserves_steps.
  - apply keeps_connection_initialized. intros P.
    unfold offMessage. by preserves_steps.
  - apply keeps_connection_initialized. intros P.
    unfold rpc. by preserves_steps.
  - apply keeps_connection_initialized. intros P.
    unfold daemonRpc. by preserves_steps.
  - apply keeps_connection_initialized. intros P.
    unfold send. by preserves_steps.
  - apply initialized_updateToken.
  - intros Hinit. unfold ignore, state_after, deliver. simpl. run_M.
    destruct (socket st) as [sock|] eqn:Hs; [|done].
    destruct (handlersInstalled sock); [|done].
    assert (Hset : forall r, initialized_if_connected
      (set_socket (Some {| recovered := r; handlersInstalled := true |}) st)).
    { intros r. destruct Hinit as [H1 H2]. split; simpl; [|done].
      intros _. apply H1. by rewrite Hs. }
    destruct ev as [r| | | |event data].
    + run_M. rewrite run_on_connect. simpl.
      destruct (decide (currentStatus st <> connected)); apply (Hset r).
    + unfold on_disconnect. rewrite run_updateStatus.
      by destruct (decide (currentStatus st <> disconnected)).
    + unfold on_connect_error. rewrite run_updateStatus.
      by destruct (decide (currentStatus st <> error)).
    + unfold on_error. rewrite run_updateStatus.
      by destruct (decide (currentStatus st <> error)).
    + unfold on_auth, on_any. run_M.
      destruct (decide (event = "auth")); run_M;
        by destruct (messageHandlers st !! event).
Qed.

(** In every state the singleton can reach, a socket comes with a
    configuration and an encryption context: the second precondition check of
    [daemonRpc] guards a state that the methods alone do not produce. *)
Lemma Reachable_initialized (st : State) :
  Reachable st -> is_Some (socket st) -> is_Some (encryption st).
Proof.
  intros Hreach. cut (initialized_if_connected st).
  { intros [H1 H2] Hs. auto. }
  induction Hreach as [|st c _ IH].
  - split; by intros [? [=]].
  - by apply initialized_run_call.
Qed.

(** ** Listeners and handlers *)

Lemma reconnected_calls_app (t1 t2 : list Effect) :
  reconnected_calls (t1 ++ t2) = reconnected_calls t1 ++ reconnected_calls t2.
Proof. apply omap_app. Qed.

Lemma reconnected_calls_status (s : list Callback) (status : Status) :
  reconnected_calls (map (fun l => StatusListenerCall l status) s) = [].
Proof. induction s as [|l s IH]; [done|]. simpl. exact IH. Qed.

Lemma reconnected_calls_reconnected (s : list Callback) :
  reconnected_calls (map ReconnectedListenerCall s) = s.
Proof.
  induction s as [|l s IH]; [done|].
  change (l :: reconnected_calls (map ReconnectedListenerCall s) = l :: s).
  by rewrite IH.
Qed.

Lemma times_called_not_in (l : Callback) (s : list Callback) :
  l ∉ s -> times_called l s = 0.
Proof.
  unfold times_called. induction s as [|x s IH]; intros Hl; [done|].
  apply not_elem_of_cons in Hl as [Hne Hl].
  rewrite filter_cons_False by congruence. by apply IH.
Qed.

Lemma times_called_NoDup (l : Callback) (s : list Callback) :
  NoDup s -> times_called l s = if decide (l ∈ s) then 1 else 0.
Proof.
  intros Hs. destruct (decide (l ∈ s)) as [Hin|Hout];
    [|by apply times_called_not_in].
  induction Hs as [|x s Hx Hs IH]; [by apply elem_of_nil in Hin|].
  unfold times_called in *. destruct (decide (x = l)) as [->|Hne].
  - rewrite filter_cons_True by done. simpl. f_equal.
    by apply (times_called_not_in l s).
  - rewrite filter_cons_False by done. apply IH.
    apply elem_of_cons in Hin as [?|?]; [congruence|done].
Qed.

(** C7.  When the transport reports a connection on the current socket (the
    'connect' handler runs), in any state the object can reach: if the
    socket's [recovered] flag is false, the registered "reconnected"
    listeners are called, each exactly once and no other callback as a
    "reconnected" listener; if the flag is true, none is called.  Listeners
    are taken to return normally. *)
Theorem reconnected_listeners_fire_once (st : State) (sock : Socket) :
  Reachable st -> socket st = Some sock ->
  let calls := reconnected_calls (effects on_connect st) in
  outcome on_connect st = Resolved tt /\
  (recovered sock = false ->
     calls = reconnectedListeners st /\
     forall l, times_called l calls
               = if decide (l ∈ reconnectedListeners st) then 1 else 0) /\
  (recovered sock = true -> calls = []).
Proof.
  intros Hreach Hsock. unfold outcome, effects.
  rewrite run_on_connect, Hsock. simpl.
  rewrite reconnected_calls_app.
  replace (reconnected_calls
             (if decide (currentStatus st <> connected)
              then map (fun l => StatusListenerCall l connected)
                     (statusListeners st)
              else [])) with (@nil Callback)
    by (destruct (decide (currentStatus st <> connected));
        by rewrite ?reconnected_calls_status).
  simpl. split; [done|]. split; intros ->.
  - rewrite reconnected_calls_reconnected. split; [done|].
    intros l. apply times_called_NoDup. by apply Reachable_wf.
  - done.
Qed.

(** C8.  [onStatusChange] calls the new listener once, synchronously, with
    the current status, whatever that status is, and has no other effect; the
    listener is registered from then on.  Whatever happens later, the first
    status the listener ever receives through this registration is that one,
    and a later transition to another status is delivered to it. *)
Theorem status_listener_replay (st : State) (listener : Callback)
  (later : list Call) :
  let st1 := state_after (onStatusChange listener) st in
  let t1 := effects (onStatusChange listener) st in
  let t2 := (run_calls later st1).2 in
  outcome (onStatusChange listener) st = Resolved tt /\
  t1 = [StatusListenerCall listener (currentStatus st)] /\
  listener ∈ statusListeners st1 /\
  currentStatus st1 = currentStatus st /\
  status_calls_to listener (t1 ++ t2)
  = currentStatus st :: status_calls_to listener t2 /\
  forall status, status <> currentStatus st ->
    StatusListenerCall listener status ∈ effects (updateStatus status) st1.
Proof.
  simpl. split; [done|]. split; [done|].
  split; [apply elem_of_Set_add|]. split; [done|]. split.
  - unfold effects, onStatusChange. run_M. unfold status_calls_to. simpl.
    by rewrite decide_True.
  - intros status Hne. unfold effects. rewrite run_updateStatus.
    unfold state_after, onStatusChange. run_M.
    rewrite decide_True by done. simpl.
    apply list_elem_of_fmap. exists listener. split; [done|].
    apply elem_of_Set_add.
Qed.


End WithApiEncryption.

Section Witnesses.
Local Existing Instance Toy.apiEncryption.

Lemma rpc_params_cross_encrypted_witness :
  exists enc c timeout,
    encryption Toy.ready = Some enc /\
    encryptRaw enc (JStr "x") = Ok c /\
    EmitWithAck None "rpc-call" {| method := "s1:ping"; params := "k1sx" |}
    = EmitWithAck timeout "rpc-call"
        {| method := "s1" +:+ ":" +:+ "ping"; params := c |}.
Proof.
  apply (rpc_params_cross_encrypted Toy.ready "s1" "ping" (JStr "x") NoAck).
  - left. vm_compute. apply list_elem_of_singleton. reflexivity.
  - reflexivity.
Defined.

(** C3 as stated fails for [rpc]: the server names its reason, and the
    caller gets the fixed message. *)
Lemma rpc_drops_server_error :
  error_ Toy.refusal = Some "session not found" /\
  outcome (rpc "s1" "ping" (JStr "x") (Acked Toy.refusal)) Toy.ready
  = Rejected (Error "RPC call failed") /\
  Error "RPC call failed" <> Error "session not found".
Proof. split; [reflexivity|]. split; [reflexivity|discriminate]. Qed.

Lemma rpc_failure_message_witness :
  outcome (daemonRpc "m1" "spawn" (JStr "x") (Acked Toy.refusal)) Toy.ready
  = Rejected (Error "session not found") /\
  outcome (rpc "s1" "ping" (JStr "x") (Acked Toy.refusal)) Toy.ready
  = Rejected (Error "RPC call failed").
Proof.
  split.
  - eapply (rpc_failure_message Toy.ready _ Toy.key "k1sx" "m1" "spawn"
              (JStr "x") Toy.refusal); [reflexivity ..|discriminate].
  - eapply (rpc_failure_message Toy.ready _ Toy.key "k1sx" "s1" "ping"
              (JStr "x") Toy.refusal); reflexivity.
Defined.


Lemma rpc_unguarded_witness :
  outcome (rpc "s1" "ping" (JStr "x") NoAck) initial
  = Rejected (TypeError_null "emitWithAck") /\
  outcome (rpc "s1" "ping" (JStr "x") NoAck) Toy.no_encryption
  = Rejected (TypeError_null "encryptRaw").
Proof.
  split.
  - destruct (rpc_unguarded initial "s1" "ping" (JStr "x") NoAck)
      as (_ & Hsock & _); [by left|]. by apply Hsock.
  - destruct (rpc_unguarded Toy.no_encryption "s1" "ping" (JStr "x") NoAck)
      as (_ & _ & Henc & _); [by right|]. by apply Henc.
Defined.

Lemma reconnected_listeners_fire_once_witness :
  reconnected_calls (effects on_connect Toy.fresh_session) = [11; 12] /\
  reconnected_calls (effects on_connect Toy.resumed_session) = [].
Proof.
  split.
  - destruct (reconnected_listeners_fire_once Toy.fresh_session
                {| recovered := false; handlersInstalled := true |})
      as (_ & Hfresh & _);
      [apply Reachable_run_calls, Reachable_initial|reflexivity|].
    by destruct (Hfresh eq_refl) as [-> _].
  - destruct (reconnected_listeners_fire_once Toy.resumed_session
                {| recovered := true; handlersInstalled := true |})
      as (_ & _ & Hresumed);
      [repeat apply Reachable_run_calls; apply Reachable_initial
      |reflexivity|].
    by apply Hresumed.
Defined.

(** The precondition of [daemonRpc] is the socket object, not the state of
    the transport: with the transport down and the socket still there, the
    call is handed to socket.io and ends in the timeout. *)
Example daemonRpc_while_transport_down :
  let st := (run_calls [Call_deliver Ev_disconnect] Toy.ready).1 in
  currentStatus st = disconnected /\
  run (daemonRpc "m1" "spawn" (JStr "x") NoAck) st
  = (Rejected timeout_error, st,
     [ConsoleLog "🔌 DaemonRPC: Calling m1:spawn" (LogValue (JStr "x"));
      EmitWithAck (Some 15000%Z) "rpc-call"
        {| method := "m1:spawn"; params := "k1sx" |};
      ConsoleError "🔌 DaemonRPC: Error for m1:spawn" timeout_error]).
Proof. split; reflexivity. Qed.

(** A listener registered once the transport is connected is called with
    [connected] straight away, and with [disconnected] when the transport
    drops afterwards. *)
Example status_listener_after_connect :
  currentStatus Toy.resumed_session = connected /\
  (run_calls [Call_onStatusChange 31; Call_deliver Ev_disconnect]
     Toy.resumed_session).2
  = [StatusListenerCall 31 connected;
     StatusListenerCall 21 disconnected; StatusListenerCall 31 disconnected].
Proof. split; reflexivity. Qed.

(** Two handlers registered for 'update', then an 'update' and an 'ephemeral'
    event from the server. *)
Example second_handler_only :
  (run_calls [Call_onMessage "update" 41; Call_onMessage "update" 42;
              Call_deliver (Ev_message "update" (JStr "u1"));
              Call_deliver (Ev_message "ephemeral" JNull)] Toy.ready).2
  = [MessageHandlerCall 42 (JStr "u1")].
Proof. reflexivity. Qed.

End Witnesses.
End ApiSocketSpec.

(** * More about ApiSocket: connection lifecycle and registrations *)

Module ApiSocketLifecycle.
Import ApiSocket ApiSocketLog ApiSocketSpec.
Section WithApiEncryption.
Context {AE : ApiEncryptionModule}.

Ltac unfold_M :=
  repeat (progress (unfold mbind, M_bind, mret, M_ret, get, modify, throw,
                    nonnull, lift; simpl)).

(** ** [updateToken] *)

Lemma run_updateToken_reconnect (st : State) (cfg : SyncSocketConfig)
  (sock : Socket) (newToken : string) :
  config st = Some cfg -> socket st = Some sock -> token cfg <> newToken ->
  let cfg' := {| endpoint := endpoint cfg; token := newToken |} in
  updateToken newToken st =
  (Resolved tt,
   set_socket (Some {| recovered := false; handlersInstalled := true |})
     (set_currentStatus connecting (set_config (Some cfg') st)),
   [SocketDisconnect] ++
   (if decide (currentStatus st <> disconnected)
    then map (fun l => StatusListenerCall l disconnected) (statusListeners st)
    else []) ++
   map (fun l => StatusListenerCall l connecting) (statusListeners st) ++
   [IoConnect (endpoint cfg) (io_options cfg')]).
Proof.
  intros Hc Hs Hne. unfold updateToken. unfold_M. rewrite Hc.
  rewrite decide_True by done. unfold_M. rewrite Hs.
  rewrite run_disconnect. simpl. rewrite Hs. simpl.
  destruct (decide (currentStatus st <> disconnected)) as [Hd|Hd]; simpl;
    rewrite run_connect; simpl.
  - by rewrite <- ?app_assoc.
  - apply dec_stable in Hd.
    destruct (decide (currentStatus st <> connecting)) as [|Hn];
      [reflexivity|]. exfalso. apply Hn. by rewrite Hd.
Qed.

Lemma run_updateToken (st : State) (newToken : string) :
  updateToken newToken st =
  match config st with
  | None => (Resolved tt, st, [])
  | Some cfg =>
      if decide (token cfg <> newToken) then
        let cfg' := {| endpoint := endpoint cfg; token := newToken |} in
        match socket st with
        | None => (Resolved tt, set_config (Some cfg') st, [])
        | Some _ =>
            (Resolved tt,
             set_socket
               (Some {| recovered := false; handlersInstalled := true |})
               (set_currentStatus connecting (set_config (Some cfg') st)),
             [SocketDisconnect] ++
             (if decide (currentStatus st <> disconnected)
              then map (fun l => StatusListenerCall l disconnected)
                     (statusListeners st)
              else []) ++
             map (fun l => StatusListenerCall l connecting)
               (statusListeners st) ++
             [IoConnect (endpoint cfg) (io_options cfg')])
        end
      else (Resolved tt, st, [])
  end.
Proof.
  destruct (config st) as [cfg|] eqn:Hc.
  - destruct (decide (token cfg <> newToken)) as [Hne|Heq].
    + destruct (socket st) as [sock|] eqn:Hs.
      * by apply (run_updateToken_reconnect st cfg sock).
      * unfold updateToken. unfold_M. rewrite Hc.
        rewrite decide_True by done. unfold_M. by rewrite Hs.
    + unfold updateToken. unfold_M. rewrite Hc. by rewrite decide_False.
  - unfold updateToken. unfold_M. by rewrite Hc.
Qed.

(** X1.  [updateToken] with the token already in use, or before any
    configuration exists, does nothing: no field changes, nothing is sent,
    no listener is called. *)
Theorem updateToken_same_token_noop (st : State) (newToken : string) :
  config st = None \/
  (exists cfg, config st = Some cfg /\ token cfg = newToken) ->
  run (updateToken newToken) st = (Resolved tt, st, []).
Proof.
  intros [Hc|(cfg & Hc & Htok)]; unfold run; rewrite run_updateToken, Hc;
    [done|].
  by rewrite decide_False by (intros Hne; by apply Hne).
Qed.

(** X2.  [updateToken] with a new token stores it in the configuration.
    Without a socket that is all it does.  With a socket it closes that
    socket and opens a new one with the new token in the handshake: the
    status goes through [disconnected] (notified only if it was not
    [disconnected] already) to [connecting], and the encryption context, the
    listeners and the handlers are kept. *)
Theorem updateToken_new_token_reconnects (st : State)
  (cfg : SyncSocketConfig) (newToken : string) :
  config st = Some cfg -> token cfg <> newToken ->
  let cfg' := {| endpoint := endpoint cfg; token := newToken |} in
  match socket st with
  | None =>
      run (updateToken newToken) st
      = (Resolved tt, set_config (Some cfg') st, [])
  | Some _ =>
      outcome (updateToken newToken) st = Resolved tt /\
      effects (updateToken newToken) st =
        [SocketDisconnect] ++
        (if decide (currentStatus st <> disconnected)
         then map (fun l => StatusListenerCall l disconnected)
                (statusListeners st)
         else []) ++
        map (fun l => StatusListenerCall l connecting) (statusListeners st) ++
        [IoConnect (endpoint cfg) (io_options cfg')] /\
      auth_token (io_options cfg') = newToken /\
      state_after (updateToken newToken) st =
        set_socket (Some {| recovered := false; handlersInstalled := true |})
          (set_currentStatus connecting (set_config (Some cfg') st))
  end.
Proof.
  intros Hc Hne. simpl. unfold run, outcome, effects, state_after.
  rewrite run_updateToken, Hc. rewrite decide_True by done.
  by destruct (socket st).
Qed.

(** ** [connect], [disconnect], [initialize] *)

Lemma connect_guard (st : State) :
  config st = None \/ socket st <> None ->
  connect st = (Resolved tt, st, []).
Proof.
  intros Hguard. rewrite run_connect.
  destruct (config st); [|done]. destruct (socket st); [done|].
  by destruct Hguard.
Qed.

(** X3.  [connect] opens a socket only when a configuration is stored and no
    socket exists; otherwise it does nothing.  So a second [connect] right
    after a first never opens a second socket: calling it twice is the same
    as calling it once. *)
Theorem connect_twice_is_once (st : State) :
  run (connect;; connect) st = run connect st /\
  (config st = None \/ socket st <> None ->
   run connect st = (Resolved tt, st, [])) /\
  (forall cfg, config st = Some cfg -> socket st = None ->
   socket (state_after connect st)
   = Some {| recovered := false; handlersInstalled := true |} /\
   currentStatus (state_after connect st) = connecting /\
   last (effects connect st) = Some (IoConnect (endpoint cfg) (io_options cfg))).
Proof.
  split; [|split].
  - unfold run. rewrite run_bind.
    destruct (connect st) as [[[[]|e|] st1] t1] eqn:Hrun; try done.
    assert (Hguard : config st1 = None \/ socket st1 <> None).
    { rewrite run_connect in Hrun.
      destruct (config st) as [cfg|] eqn:Hc;
        [destruct (socket st) eqn:Hs|]; simplify_eq; simpl.
      - right. by rewrite Hs.
      - by right.
      - by left. }
    rewrite (connect_guard st1 Hguard). by rewrite app_nil_r.
  - apply connect_guard.
  - intros cfg Hc Hs. unfold state_after, effects. rewrite run_connect, Hc, Hs.
    simpl. split; [done|].
    split; [|by rewrite last_snoc].
    destruct (decide (currentStatus st <> connecting)) as [|Hn]; [done|].
    by apply dec_stable in Hn.
Qed.

Lemma socket_after_disconnect (st : State) :
  socket (state_after disconnect st) = None.
Proof.
  unfold state_after. rewrite run_disconnect. simpl.
  by destruct (socket st) eqn:Hs, (decide (currentStatus st <> disconnected)).
Qed.

Lemma status_after_disconnect (st : State) :
  currentStatus (state_after disconnect st) = disconnected.
Proof.
  unfold state_after. rewrite run_disconnect. simpl.
  destruct (decide (currentStatus st <> disconnected)) as [|Hn]; [done|].
  apply dec_stable in Hn. by destruct (socket st).
Qed.

(** X4.  After [disconnect] there is no socket and the status is
    [disconnected].  [socket.disconnect()] is called exactly when a socket
    existed, status listeners are notified exactly when the status was not
    [disconnected] before, and a second [disconnect] does nothing. *)
Theorem disconnect_closes (st : State) :
  socket (state_after disconnect st) = None /\
  currentStatus (state_after disconnect st) = disconnected /\
  effects disconnect st =
    (if socket st is Some _ then [SocketDisconnect] else []) ++
    (if decide (currentStatus st <> disconnected)
     then map (fun l => StatusListenerCall l disconnected) (statusListeners st)
     else []) /\
  run disconnect (state_after disconnect st)
  = (Resolved tt, state_after disconnect st, []).
Proof.
  pose proof (socket_after_disconnect st) as Hs.
  pose proof (status_after_disconnect st) as Hc.
  split; [done|]. split; [done|]. split.
  - unfold effects. by rewrite run_disconnect.
  - unfold run. rewrite run_disconnect. simpl. by rewrite Hs, Hc.
Qed.

(** X5.  Once [disconnect] has run, [send], [rpc] and [daemonRpc] all fail
    without anything being handed to socket.io: [send] and [rpc] with the
    TypeError of a property read from [null], [daemonRpc] with
    'Socket not connected'. *)
Theorem calls_after_disconnect_fail (st : State) (event scope method_ : string)
  (data params_ : JSValue) (ack : Ack) :
  let st' := state_after disconnect st in
  run (send event data) st' = (Rejected (TypeError_null "emit"), st', []) /\
  run (rpc scope method_ params_ ack) st'
  = (Rejected (TypeError_null "emitWithAck"), st', []) /\
  run (daemonRpc scope method_ params_ ack) st'
  = (Rejected (Error "Socket not connected"), st', []).
Proof.
  simpl. pose proof (socket_after_disconnect st) as Hs.
  set (st' := state_after disconnect st) in *.
  unfold run. rewrite run_rpc_null, run_daemonRpc_null by auto.
  rewrite Hs. split; [|done]. unfold send. unfold_M. by rewrite Hs.
Qed.

(** X6.  [initialize] on an object that already has a socket replaces the
    configuration and the encryption context but keeps the existing
    connection: nothing is closed or opened, so a new endpoint or token takes
    effect only after a [disconnect].  Without a socket it connects with the
    configuration it was given. *)
Theorem initialize_keeps_open_socket (st : State) (cfg : SyncSocketConfig)
  (enc : ApiEncryption) :
  match socket st with
  | Some _ =>
      run (initialize cfg enc) st
      = (Resolved tt, set_encryption (Some enc) (set_config (Some cfg) st), [])
  | None =>
      config (state_after (initialize cfg enc) st) = Some cfg /\
      encryption (state_after (initialize cfg enc) st) = Some enc /\
      socket (state_after (initialize cfg enc) st)
      = Some {| recovered := false; handlersInstalled := true |} /\
      currentStatus (state_after (initialize cfg enc) st) = connecting /\
      last (effects (initialize cfg enc) st)
      = Some (IoConnect (endpoint cfg) (io_options cfg))
  end.
Proof.
  unfold run, state_after, effects, initialize. unfold_M.
  rewrite run_connect. simpl. destruct (socket st); [done|]. simpl.
  split; [by destruct (decide (currentStatus st <> connecting))|].
  split; [by destruct (decide (currentStatus st <> connecting))|].
  split; [done|]. split; [|by rewrite last_snoc].
  destruct (decide (currentStatus st <> connecting)) as [|Hn]; [done|].
  by apply dec_stable in Hn.
Qed.

(** ** The status follows the socket *)

Ltac step_preserves :=
  repeat lazymatch goal with
    | |- preserves _ (mret _) => apply preserves_ret
    | |- preserves _ get => apply preserves_get
    | |- preserves _ (perform _) => apply preserves_perform
    | |- preserves _ (throw _) => apply preserves_throw
    | |- preserves _ (lift _) => apply preserves_lift
    | |- preserves _ (nonnull _ _) => apply preserves_nonnull
    | |- preserves _ (emitWithAck _ _ _ _) => apply preserves_emitWithAck
    | |- preserves _ (_ ≫= _) => apply preserves_bind; [|intros ?]
    | |- preserves _ (try_catch_M _ _) =>
        apply preserves_try_catch; [|intros ?]
    | |- preserves _ (forEach _ _) => apply preserves_forEach; intros ?
    | |- preserves _ (modify _) => apply preserves_modify
    | |- preserves _ (match ?x with _ => _ end) => destruct x
    end.

Lemma closed_connect :
  preserves (fun st => socket st = None -> currentStatus st = disconnected)
    connect.
Proof.
  intros st Hst. unfold state_after. rewrite run_connect.
  destruct (config st); [|exact Hst].
  destruct (socket st) eqn:Hs; simpl; [by rewrite Hs|discriminate].
Qed.

Lemma quiet_closed {A : Type} (m : M A) (st : State) :
  preserves (fun s => socket s = None -> currentStatus s = disconnected) m ->
  (socket st = None -> currentStatus st = disconnected) ->
  socket (state_after m st) = None ->
  currentStatus (state_after m st) = disconnected.
Proof. intros Hm. apply Hm. Qed.

Lemma closed_run_call (c : Call) (st : State) :
  (socket st = None -> currentStatus st = disconnected) ->
  socket (run_call c st).1 = None ->
  currentStatus (run_call c st).1 = disconnected.
Proof.
  destruct c; cbn [run_call]; unfold ignore; cbn [fst].
  - intros Hst. rewrite state_after_initialize. by apply closed_connect.
  - apply closed_connect.
  - intros _ _. apply status_after_disconnect.
  - apply (quiet_closed _ st). unfold onReconnected. by step_preserves.
  - apply (quiet_closed _ st). unfold onReconnected_unsubscribe.
    by step_preserves.
  - apply (quiet_closed _ st). unfold onStatusChange. by step_preserves.
  - apply (quiet_closed _ st). unfold onStatusChange_unsubscribe.
    by step_preserves.
  - apply (quiet_closed _ st). unfold onMessage. by step_preserves.
  - apply (quiet_closed _ st). unfold onMessage_unsubscribe.
    by step_preserves.
  - apply (quiet_closed _ st). unfold offMessage. by step_preserves.
  - apply (quiet_closed _ st). unfold rpc. by step_preserves.
  - apply (quiet_closed _ st). unfold daemonRpc. by step_preserves.
  - apply (quiet_closed _ st). unfold send. by step_preserves.
  - intros Hst. unfold state_after. rewrite run_updateToken.
    destruct (config st) as [cfg|]; [|exact Hst].
    destruct (decide (token cfg <> newToken)); [|exact Hst].
    destruct (socket st) eqn:Hs; simpl; [discriminate|by rewrite Hs].
  - intros Hst. unfold state_after, deliver. unfold_M.
    destruct (socket st) as [sock|] eqn:Hs; [|by intros _; apply Hst].
    destruct (handlersInstalled sock); [|simpl; by rewrite Hs].
    destruct ev as [r| | | |event data].
    + unfold_M. rewrite run_on_connect. simpl.
      by destruct (decide (currentStatus st <> connected)).
    + unfold on_disconnect. rewrite run_updateStatus.
      destruct (decide (currentStatus st <> disconnected)); simpl;
        by rewrite Hs.
    + unfold on_connect_error. rewrite run_updateStatus.
      destruct (decide (currentStatus st <> error)); simpl; by rewrite Hs.
    + unfold on_error. rewrite run_updateStatus.
      destruct (decide (currentStatus st <> error)); simpl; by rewrite Hs.
    + unfold on_auth, on_any. unfold_M.
      destruct (decide (event = "auth")); unfold_M;
        destruct (messageHandlers st !! event); simpl; by rewrite Hs.
Qed.

(** X7.  In every state the object can reach, the status is [disconnected]
    whenever there is no socket: [connecting], [connected] and [error] are
    only ever reported while a socket object exists. *)
Theorem status_disconnected_without_socket (st : State) :
  Reachable st -> socket st = None -> currentStatus st = disconnected.
Proof.
  induction 1 as [|st c _ IH]; [done|]. by apply closed_run_call.
Qed.

(** X8.  In every state the object can reach, a socket comes with an
    encryption context.  So [daemonRpc] either fails with
    'Socket not connected' (exactly when there is no socket) or passes both
    of its checks and logs the call; its 'Encryption not initialized' branch
    is never taken. *)
Theorem daemonRpc_reachable_preconditions (st : State)
  (machineId method_ : string) (params_ : JSValue) (ack : Ack) :
  Reachable st ->
  (socket st = None /\
   run (daemonRpc machineId method_ params_ ack) st
   = (Rejected (Error "Socket not connected"), st, [])) \/
  (exists sock enc,
     socket st = Some sock /\ encryption st = Some enc /\
     head (effects (daemonRpc machineId method_ params_ ack) st)
     = Some (ConsoleLog
               ("🔌 DaemonRPC: Calling " +:+ machineId +:+ ":" +:+ method_)
               (LogValue params_))).
Proof.
  intros Hreach. destruct (socket st) as [sock|] eqn:Hs.
  - right. destruct (Reachable_initialized st Hreach) as [enc Henc];
      [by rewrite Hs|].
    exists sock, enc. split; [done|]. split; [done|].
    unfold effects. rewrite (run_daemonRpc_called st sock enc) by done.
    destruct (encryptRaw enc params_); [|done].
    destruct ack as [response|]; [|done].
    destruct (ok response); [|done].
    by destruct (decryptRaw enc (result response)).
  - left. split; [done|]. unfold run.
    rewrite run_daemonRpc_null by auto. by rewrite Hs.
Qed.

(** ** Registrations *)

Lemma Set_delete_Set_add (l : Callback) (s : list Callback) :
  l ∉ s -> Set_delete l (Set_add l s) = s.
Proof.
  intros Hl. unfold Set_add, Set_delete. rewrite decide_False by done.
  rewrite filter_app, filter_cons_False, filter_nil, app_nil_r
    by (intros Hne; by apply Hne).
  induction s as [|x s IH]; [done|].
  apply not_elem_of_cons in Hl as [Hne Hl].
  rewrite filter_cons_True by done. by rewrite IH.
Qed.

Lemma elem_of_Set_delete (l x : Callback) (s : list Callback) :
  x ∈ Set_delete l s <-> x <> l /\ x ∈ s.
Proof. unfold Set_delete. by rewrite list_elem_of_filter. Qed.

(** X9.  The "reconnected" listeners form a set.  Registering a listener that
    is already registered changes nothing.  Unsubscribing removes it however
    often it was registered: the next connect event does not call it, while
    every other listener stays registered.  Registering a new listener and
    unsubscribing it again leaves the object as it was. *)
Theorem reconnected_registration_is_a_set (st : State) (l : Callback) :
  state_after (onReconnected l) (state_after (onReconnected l) st)
  = state_after (onReconnected l) st /\
  l ∈ reconnectedListeners (state_after (onReconnected l) st) /\
  (let st' := state_after (onReconnected_unsubscribe l) st in
   (l ∉ reconnectedListeners st') /\
   (l ∉ reconnected_calls (effects on_connect st')) /\
   forall l', l' <> l ->
     (l' ∈ reconnectedListeners st' <-> l' ∈ reconnectedListeners st)) /\
  (l ∉ reconnectedListeners st ->
   state_after (onReconnected_unsubscribe l) (state_after (onReconnected l) st)
   = st).
Proof.
  split; [|split; [|split]].
  - unfold state_after, onReconnected. simpl.
    unfold Set_add at 1. rewrite decide_True by apply elem_of_Set_add.
    reflexivity.
  - apply elem_of_Set_add.
  - simpl. unfold state_after, onReconnected_unsubscribe. simpl.
    split; [rewrite elem_of_Set_delete; by intros [? _]|]. split.
    + unfold effects. rewrite run_on_connect. simpl.
      rewrite reconnected_calls_app.
      intros [Hin|Hin]%elem_of_app.
      * destruct (decide (currentStatus st <> connected));
          [rewrite reconnected_calls_status in Hin|];
          by apply elem_of_nil in Hin.
      * destruct (from_option recovered false (socket st));
          [by apply elem_of_nil in Hin|].
        rewrite reconnected_calls_reconnected in Hin.
        apply elem_of_Set_delete in Hin. by destruct Hin.
    + intros l' Hne. rewrite elem_of_Set_delete.
      split; [by intros [_ ?]|by intros ?].
  - intros Hl. unfold state_after, onReconnected_unsubscribe, onReconnected.
    simpl. rewrite Set_delete_Set_add by done. by destruct st.
Qed.

(** X10.  Message handlers are removed by event name alone.  After two
    registrations for one event, the unsubscribe function returned by the
    first registration removes the handler registered second, and
    [offMessage] removes the event's handler whatever handler it is given;
    either way the next event of that name calls nothing.  Handlers of other
    events are not touched. *)
Theorem message_handler_removed_by_name (st : State) (event : string)
  (h1 h2 h : Callback) (data : JSValue) :
  let st2 := state_after (onMessage event h2)
               (state_after (onMessage event h1) st) in
  effects (on_any event data) (state_after (onMessage_unsubscribe event) st2)
  = [] /\
  effects (on_any event data) (state_after (offMessage event h) st2) = [] /\
  state_after (offMessage event h) st2
  = state_after (onMessage_unsubscribe event) st2 /\
  forall other, other <> event ->
    messageHandlers (state_after (onMessage_unsubscribe event) st2) !! other
    = messageHandlers st !! other.
Proof.
  simpl. unfold effects, state_after, on_any, onMessage_unsubscribe,
    offMessage, onMessage. unfold_M.
  rewrite lookup_delete_eq. repeat split; try done.
  intros other Hne.
  by rewrite lookup_delete_ne, !lookup_insert_ne by done.
Qed.

(** ** How the RPC calls end *)

Lemma unchanged_by {A : Type} (m : M A) (st : State) :
  preserves (fun s => s = st) m -> state_after m st = st.
Proof. intros Hm. by apply Hm. Qed.

(** X11.  [rpc] and [daemonRpc] never change a field of the object, however
    they end.  When the call reached the server and the response has
    [ok: true], both return what [decryptRaw] makes of the response's
    [result], with the encryption context that encrypted the params; an
    exception from [decryptRaw] rejects the call. *)
Theorem rpc_returns_decrypted_result (st : State) (scope method_ : string)
  (params_ : JSValue) (ack : Ack) :
  state_after (rpc scope method_ params_ ack) st = st /\
  state_after (daemonRpc scope method_ params_ ack) st = st /\
  forall sock enc c response,
    socket st = Some sock -> encryption st = Some enc ->
    encryptRaw enc params_ = Ok c ->
    ack = Acked response -> ok response = true ->
    let decrypted :=
      match decryptRaw enc (result response) with
      | Ok v => Resolved v
      | Throw e => Rejected e
      end in
    outcome (rpc scope method_ params_ ack) st = decrypted /\
    outcome (daemonRpc scope method_ params_ ack) st = decrypted.
Proof.
  split; [|split].
  - apply unchanged_by. unfold rpc. by step_preserves.
  - apply unchanged_by. unfold daemonRpc. by step_preserves.
  - intros sock enc c response Hs He Hc -> Hok. simpl. unfold outcome.
    rewrite (run_rpc_emitted st sock enc c) by done.
    rewrite (run_daemonRpc_called st sock enc) by done.
    rewrite Hc, Hok. by destruct (decryptRaw enc (result response)).
Qed.

(** X12.  [daemonRpc] always settles: it sets a 15 second timeout on the
    emit, so a missing acknowledgement rejects the call.  [rpc] sets none:
    it stays pending for ever exactly when the call reached the wire and no
    acknowledgement comes. *)
Theorem daemonRpc_settles_rpc_may_hang (st : State) (scope method_ : string)
  (params_ : JSValue) (ack : Ack) :
  ((exists v, outcome (daemonRpc scope method_ params_ ack) st = Resolved v)
   \/ (exists e,
         outcome (daemonRpc scope method_ params_ ack) st = Rejected e)) /\
  (forall e, EmitWithAck None "rpc-call" e
             ∉ effects (daemonRpc scope method_ params_ ack) st) /\
  (outcome (rpc scope method_ params_ ack) st = Pending <->
   ack = NoAck /\
   exists sock enc c,
     socket st = Some sock /\ encryption st = Some enc /\
     encryptRaw enc params_ = Ok c).
Proof.
  assert (Hlist : forall t : list Effect,
    Forall (fun x => forall e, x <> EmitWithAck None "rpc-call" e) t ->
    forall e, EmitWithAck None "rpc-call" e ∉ t).
  { intros t Ht e Hin. rewrite Forall_forall in Ht. by apply (Ht _ Hin e). }
  unfold outcome, effects.
  destruct (socket st) as [sock|] eqn:Hs;
    [destruct (encryption st) as [enc|] eqn:He|].
  - rewrite (run_daemonRpc_called st sock enc) by done.
    destruct (encryptRaw enc params_) as [c|err] eqn:Hc.
    + rewrite (run_rpc_emitted st sock enc c) by done.
      destruct ack as [response|]; simpl.
      * destruct (ok response);
          [destruct (decryptRaw enc (result response))|]; simpl;
          (split; [eauto|]);
          (split; [apply Hlist; repeat constructor; discriminate|]);
          (split; [done|by intros [? _]]).
      * split; [eauto|].
        split; [apply Hlist; repeat constructor; discriminate|].
        split; [|done]. intros _. split; [done|]. by exists sock, enc, c.
    + rewrite (run_rpc_encrypt_throws st sock enc err) by done. simpl.
      split; [eauto|].
      split; [apply Hlist; repeat constructor; discriminate|].
      split; [done|]. intros [_ (? & ? & ? & ? & ? & ?)]. simplify_eq; congruence.
  - rewrite run_daemonRpc_null, run_rpc_null by auto. simpl.
    split; [eauto|]. split; [apply Hlist; constructor|].
    split; [done|]. intros [_ (? & ? & ? & ? & ? & ?)]. simplify_eq; congruence.
  - rewrite run_daemonRpc_null, run_rpc_null by auto. simpl.
    split; [eauto|]. split; [apply Hlist; constructor|].
    split; [done|]. intros [_ (? & ? & ? & ? & ? & ?)]. simplify_eq; congruence.
Qed.

(** X13.  Past its two precondition checks, [daemonRpc] writes the caller's
    plaintext params to the console before anything else, and it reports
    every failure (an exception from [encryptRaw] or [decryptRaw], the
    timeout, an [ok: false] response) with one [console.error] carrying the
    very error the call is then rejected with; a successful call writes no
    error.  [rpc] writes nothing to the console. *)
Theorem daemonRpc_logs_and_rethrows (st : State) (sock : Socket)
  (enc : ApiEncryption) (scope method_ : string) (params_ : JSValue)
  (ack : Ack) :
  socket st = Some sock -> encryption st = Some enc ->
  head (effects (daemonRpc scope method_ params_ ack) st)
  = Some (ConsoleLog ("🔌 DaemonRPC: Calling " +:+ scope +:+ ":" +:+ method_)
            (LogValue params_)) /\
  console_errors (effects (daemonRpc scope method_ params_ ack) st)
  = match outcome (daemonRpc scope method_ params_ ack) st with
    | Rejected e => [e]
    | _ => []
    end /\
  filter (fun e => on_the_console e = true)
    (effects (rpc scope method_ params_ ack) st) = [].
Proof.
  intros Hs He. unfold effects, outcome.
  rewrite (run_daemonRpc_called st sock enc) by done.
  destruct (encryptRaw enc params_) as [c|err] eqn:Hc.
  - rewrite (run_rpc_emitted st sock enc c) by done.
    destruct ack as [response|]; [|done].
    destruct (ok response); [|done].
    by destruct (decryptRaw enc (result response)).
  - by rewrite (run_rpc_encrypt_throws st sock enc err).
Qed.

(** ** Status notifications *)

Lemma status_calls_to_cons (l x : Callback) (status : Status)
  (t : list Effect) :
  status_calls_to l (StatusListenerCall x status :: t)
  = if decide (x = l) then status :: status_calls_to l t
    else status_calls_to l t.
Proof. unfold status_calls_to. simpl. by destruct (decide (x = l)). Qed.

Lemma status_calls_to_notify (l : Callback) (s : list Callback)
  (status : Status) :
  NoDup s ->
  status_calls_to l (map (fun x => StatusListenerCall x status) s)
  = if decide (l ∈ s) then [status] else [].
Proof.
  induction 1 as [|x s Hx Hs IH]; [done|].
  rewrite map_cons, status_calls_to_cons, IH.
  destruct (decide (x = l)) as [->|Hne].
  - rewrite (decide_False (P := l ∈ s)) by done.
    by rewrite decide_True by apply list_elem_of_here.
  - destruct (decide (l ∈ s)) as [Hin|Hout].
    + by rewrite decide_True by by apply list_elem_of_further.
    + rewrite decide_False; [done|].
      intros [?|?]%elem_of_cons; congruence.
Qed.

(** X14.  A status update to the status the object already has does nothing.
    An update to another status stores it and calls the registered status
    listeners with it, in the order they were registered, each exactly once
    and nobody else. *)
Theorem updateStatus_notifies_on_change (st : State) (status : Status) :
  Reachable st ->
  (status = currentStatus st ->
   run (updateStatus status) st = (Resolved tt, st, [])) /\
  (status <> currentStatus st ->
   currentStatus (state_after (updateStatus status) st) = status /\
   effects (updateStatus status) st
   = map (fun l => StatusListenerCall l status) (statusListeners st) /\
   forall l, status_calls_to l (effects (updateStatus status) st)
             = if decide (l ∈ statusListeners st) then [status] else []).
Proof.
  intros Hreach. unfold run, state_after, effects. rewrite run_updateStatus.
  split.
  - intros ->. by rewrite decide_False by (intros Hn; by apply Hn).
  - intros Hne. rewrite decide_True by done. simpl.
    split; [done|]. split; [done|]. intros l.
    apply status_calls_to_notify. by apply Reachable_wf.
Qed.

(** ** What one status listener hears *)

Lemma last_or_app (d : Status) (xs ys : list Status) :
  last_or d (xs ++ ys) = last_or (last_or d xs) ys.
Proof. revert d. induction xs as [|x xs IH]; intros d; simpl; auto. Qed.

Lemma no_repeat_app (a : Status) (xs ys : list Status) :
  no_repeat (a :: xs) -> no_repeat (last_or a xs :: ys) ->
  no_repeat (a :: xs ++ ys).
Proof.
  revert a. induction xs as [|x xs IH]; intros a Hxs Hys; [done|].
  destruct Hxs as [Hax Hxs]. split; [done|]. by apply IH.
Qed.

Lemma status_calls_to_app (l : Callback) (t1 t2 : list Effect) :
  status_calls_to l (t1 ++ t2) = status_calls_to l t1 ++ status_calls_to l t2.
Proof. apply omap_app. Qed.

Section Tracked.
Variable l : Callback.

Lemma tracked_silent {A : Type} (m : M A) :
  (forall st, state_after m st = st /\ status_calls_to l (effects m st) = []) ->
  tracked l m.
Proof.
  intros Hm st last Hst. cbv zeta. destruct (Hm st) as [-> ->].
  split; [done|]. split; [exact Hst|]. by intros ?.
Qed.

Lemma tracked_ret {A : Type} (a : A) : tracked l (mret a).
Proof. by apply tracked_silent. Qed.

Lemma tracked_get : tracked l get.
Proof. by apply tracked_silent. Qed.

Lemma tracked_throw {A : Type} (e : JSError) : tracked l (throw (A:=A) e).
Proof. by apply tracked_silent. Qed.

Lemma tracked_lift {A : Type} (r : Result A) : tracked l (lift r).
Proof. apply tracked_silent. by destruct r. Qed.

Lemma tracked_nonnull {A : Type} (o : option A) (property : string) :
  tracked l (nonnull o property).
Proof. apply tracked_silent. by destruct o. Qed.

Lemma tracked_perform (e : Effect) :
  status_calls_to l [e] = [] -> tracked l (perform e).
Proof. intros He. by apply tracked_silent. Qed.

Lemma tracked_emitWithAck (timeout : option Z) (event : string)
  (payload : RpcCall) (ack : Ack) :
  tracked l (emitWithAck timeout event payload ack).
Proof. apply tracked_silent. intros st. by destruct ack, timeout. Qed.

Lemma tracked_modify (f : State -> State) :
  (forall st, listener_sets_wf st -> listener_sets_wf (f st)) ->
  (forall st, currentStatus (f st) = currentStatus st) ->
  (forall st, l ∈ statusListeners (f st) -> l ∈ statusListeners st) ->
  tracked l (modify f).
Proof.
  intros Hwf Hcur Hin st last [Hst Hlast]. simpl.
  split; [done|]. split; [|by auto].
  split; [by apply Hwf|]. intros Hl. rewrite Hcur. auto.
Qed.

Lemma tracked_bind {A B : Type} (m : M A) (f : A -> M B) :
  tracked l m -> (forall a, tracked l (f a)) -> tracked l (m ≫= f).
Proof.
  intros Hm Hf st last Hst. specialize (Hm st last Hst).
  unfold effects, state_after in *. rewrite run_bind.
  destruct (m st) as [[[a|e|] st1] t1]; simpl in *; try done.
  destruct Hm as (Hrep & Hst1 & Hgone).
  specialize (Hf a st1 _ Hst1). unfold effects, state_after in Hf.
  destruct (f a st1) as [[r st2] t2]. simpl in *.
  destruct Hf as (Hrep2 & Hst2 & Hgone2).
  rewrite status_calls_to_app, last_or_app.
  split; [by apply no_repeat_app|]. split; [done|].
  intros Hl. destruct (Hgone Hl) as [-> Hl1].
  by destruct (Hgone2 Hl1) as [-> Hl2].
Qed.

Lemma tracked_try_catch {A : Type} (body : M A) (handler : JSError -> M A) :
  tracked l body -> (forall e, tracked l (handler e)) ->
  tracked l (try_catch_M body handler).
Proof.
  intros Hm Hf st last Hst. specialize (Hm st last Hst).
  unfold effects, state_after, try_catch_M in *.
  destruct (body st) as [[[a|e|] st1] t1]; simpl in *; try done.
  destruct Hm as (Hrep & Hst1 & Hgone).
  specialize (Hf e st1 _ Hst1). unfold effects, state_after in Hf.
  destruct (handler e st1) as [[r st2] t2]. simpl in *.
  destruct Hf as (Hrep2 & Hst2 & Hgone2).
  rewrite status_calls_to_app, last_or_app.
  split; [by apply no_repeat_app|]. split; [done|].
  intros Hl. destruct (Hgone Hl) as [-> Hl1].
  by destruct (Hgone2 Hl1) as [-> Hl2].
Qed.

Lemma tracked_forEach (s : list Callback) (call : Callback -> M unit) :
  (forall x, tracked l (call x)) -> tracked l (forEach s call).
Proof.
  intros Hcall. induction s as [|x s IH]; simpl.
  - apply tracked_ret.
  - apply tracked_bind; [apply Hcall|]. by intros _.
Qed.

Lemma tracked_updateStatus (status : Status) : tracked l (updateStatus status).
Proof.
  intros st last [Hwf Hlast]. unfold effects, state_after.
  rewrite run_updateStatus.
  destruct (decide (currentStatus st <> status)) as [Hne|Heq]; simpl.
  - rewrite status_calls_to_notify by apply Hwf.
    destruct (decide (l ∈ statusListeners st)) as [Hin|Hout]; simpl.
    + rewrite <- (Hlast Hin). split; [by split|].
      split; [by split|]. by intros ?.
    + split; [done|]. split; [by split|]. by intros ?.
  - split; [done|]. split; [by split|]. by intros ?.
Qed.

Ltac step_tracked :=
  repeat lazymatch goal with
    | |- tracked _ (mret _) => apply tracked_ret
    | |- tracked _ get => apply tracked_get
    | |- tracked _ (throw _) => apply tracked_throw
    | |- tracked _ (lift _) => apply tracked_lift
    | |- tracked _ (nonnull _ _) => apply tracked_nonnull
    | |- tracked _ (emitWithAck _ _ _ _) => apply tracked_emitWithAck
    | |- tracked _ (updateStatus _) => apply tracked_updateStatus
    | |- tracked _ (perform _) => apply tracked_perform
    | |- tracked _ (_ ≫= _) => apply tracked_bind; [|intros ?]
    | |- tracked _ (try_catch_M _ _) => apply tracked_try_catch; [|intros ?]
    | |- tracked _ (forEach _ _) => apply tracked_forEach; intros ?
    | |- tracked _ (modify _) => apply tracked_modify
    | |- tracked _ (match ?x with _ => _ end) => destruct x
    end.

Lemma tracked_setupEventHandlers : tracked l setupEventHandlers.
Proof. unfold setupEventHandlers. step_tracked; auto using wf_set_socket. Qed.

Lemma tracked_connect : tracked l connect.
Proof.
  unfold connect. step_tracked;
    auto using wf_set_socket, tracked_setupEventHandlers.
Qed.

Lemma tracked_disconnect : tracked l disconnect.
Proof. unfold disconnect. step_tracked; auto using wf_set_socket. Qed.

Lemma tracked_on_connect : tracked l on_connect.
Proof. unfold on_connect. by step_tracked. Qed.

Lemma elem_of_Set_add_other (x : Callback) (s : list Callback) :
  x <> l -> l ∈ Set_add x s -> l ∈ s.
Proof.
  intros Hne. unfold Set_add. destruct (decide (x ∈ s)); [done|].
  intros [?|Hin]%elem_of_app; [done|].
  apply list_elem_of_singleton in Hin. congruence.
Qed.

(** Every use of the object other than registering [l] again. *)
Lemma heard_run_call (c : Call) (st : State) (last : Status) :
  c <> Call_onStatusChange l ->
  heard_last l st last ->
  no_repeat (last :: status_calls_to l (run_call c st).2) /\
  heard_last l (run_call c st).1
    (last_or last (status_calls_to l (run_call c st).2)).
Proof.
  intros Hc Hst.
  assert (Huse : forall (A : Type) (m : M A), tracked l m ->
    no_repeat (last :: status_calls_to l (effects m st)) /\
    heard_last l (state_after m st)
      (last_or last (status_calls_to l (effects m st)))).
  { intros A m Hm. by destruct (Hm st last Hst) as (? & ? & _). }
  destruct c; cbn [run_call]; unfold ignore; cbn [fst snd]; apply Huse.
  - unfold initialize. step_tracked;
      auto using wf_set_config, wf_set_encryption, tracked_connect.
  - apply tracked_connect.
  - apply tracked_disconnect.
  - unfold onReconnected. step_tracked; [|done|done].
    intros s Hwf. apply wf_set_reconnectedListeners; [|done].
    apply NoDup_Set_add, Hwf.
  - unfold onReconnected_unsubscribe. step_tracked; [|done|done].
    intros s Hwf. apply wf_set_reconnectedListeners; [|done].
    apply NoDup_Set_delete, Hwf.
  - assert (listener <> l) by congruence.
    unfold onStatusChange. step_tracked.
    + intros s Hwf. apply wf_set_statusListeners; [|done].
      apply NoDup_Set_add, Hwf.
    + done.
    + intros s. simpl. by apply elem_of_Set_add_other.
    + rewrite status_calls_to_cons. by rewrite decide_False.
  - unfold onStatusChange_unsubscribe. step_tracked.
    + intros s Hwf. apply wf_set_statusListeners; [|done].
      apply NoDup_Set_delete, Hwf.
    + done.
    + intros s. simpl. rewrite elem_of_Set_delete. by intros [_ ?].
  - unfold onMessage. by step_tracked.
  - unfold onMessage_unsubscribe. by step_tracked.
  - unfold offMessage. by step_tracked.
  - unfold rpc. by step_tracked.
  - unfold daemonRpc. by step_tracked.
  - unfold send. by step_tracked.
  - unfold updateToken. step_tracked;
      auto using wf_set_config, tracked_disconnect, tracked_connect.
  - unfold deliver, on_disconnect, on_connect_error, on_error, on_auth,
      on_any.
    step_tracked; auto using wf_set_socket, tracked_on_connect.
Qed.

Lemma heard_run_calls (later : list Call) (st : State) (last : Status) :
  Forall (fun c => c <> Call_onStatusChange l) later ->
  heard_last l st last ->
  no_repeat (last :: status_calls_to l (run_calls later st).2).
Proof.
  intros Hlater. revert st last.
  induction Hlater as [|c later Hc _ IH]; intros st last Hst; [done|].
  destruct (heard_run_call c st last Hc Hst) as [Hrep Hst1]. simpl.
  destruct (run_call c st) as [st1 t1]. simpl in *.
  specialize (IH st1 _ Hst1).
  destruct (run_calls later st1) as [st2 t2]. simpl in *.
  rewrite status_calls_to_app. by apply no_repeat_app.
Qed.

End Tracked.

(** X15.  From its registration on, a status listener never hears the same
    status twice in a row: it is first told the current status, and after
    that only of changes, whatever is then done with the object (methods
    called, socket events delivered, the listener unsubscribed), as long as
    the same listener is not registered again. *)
Theorem status_listener_hears_only_changes (st : State) (l : Callback)
  (later : list Call) :
  Reachable st ->
  Forall (fun c => c <> Call_onStatusChange l) later ->
  let st1 := state_after (onStatusChange l) st in
  no_repeat
    (status_calls_to l
       (effects (onStatusChange l) st ++ (run_calls later st1).2)).
Proof.
  intros Hreach Hlater. cbv zeta. rewrite status_calls_to_app.
  replace (status_calls_to l (effects (onStatusChange l) st))
    with [currentStatus st]
    by (change (effects (onStatusChange l) st)
          with [StatusListenerCall l (currentStatus st)];
        rewrite status_calls_to_cons; by rewrite decide_True).
  apply (heard_run_calls l later _ (currentStatus st) Hlater).
  split; [|done]. apply wf_onStatusChange. by apply Reachable_wf.
Qed.

End WithApiEncryption.

Section Witnesses.
Local Existing Instance Toy.apiEncryption.

Lemma updateToken_same_token_noop_witness :
  run (updateToken "t0") Toy.ready = (Resolved tt, Toy.ready, []).
Proof.
  apply updateToken_same_token_noop. right. exists Toy.cfg.
  split; reflexivity.
Defined.

Lemma updateToken_new_token_reconnects_witness :
  effects (updateToken "t1") Toy.fresh_session
  = [SocketDisconnect; StatusListenerCall 21 disconnected;
     StatusListenerCall 21 connecting;
     IoConnect "https://relay.example"
       (io_options {| endpoint := "https://relay.example"; token := "t1" |})].
Proof.
  pose proof (updateToken_new_token_reconnects Toy.fresh_session Toy.cfg "t1"
                eq_refl ltac:(discriminate)) as Hrun.
  assert (Hs : socket Toy.fresh_session
               = Some {| recovered := false; handlersInstalled := true |})
    by reflexivity.
  cbv zeta in Hrun. rewrite Hs in Hrun.
  destruct Hrun as (_ & Heff & _). exact Heff.
Defined.

Lemma status_disconnected_without_socket_witness :
  currentStatus (state_after disconnect Toy.fresh_session) = disconnected.
Proof.
  apply status_disconnected_without_socket; [|reflexivity].
  apply (Reachable_call _ Call_disconnect).
  apply Reachable_run_calls, Reachable_initial.
Defined.

Lemma daemonRpc_reachable_preconditions_witness :
  exists sock enc,
    socket Toy.ready = Some sock /\ encryption Toy.ready = Some enc.
Proof.
  destruct (daemonRpc_reachable_preconditions Toy.ready "m1" "spawn"
              (JStr "x") NoAck)
    as [[Hnone _]|(sock & enc & Hs & He & _)];
    [apply Reachable_run_calls, Reachable_initial|discriminate Hnone|].
  by exists sock, enc.
Defined.

Lemma daemonRpc_logs_and_rethrows_witness :
  console_errors
    (effects (daemonRpc "m1" "spawn" (JStr "x") (Acked Toy.refusal)) Toy.ready)
  = [Error "session not found"].
Proof.
  destruct (daemonRpc_logs_and_rethrows Toy.ready
              {| recovered := false; handlersInstalled := true |} Toy.key
              "m1" "spawn" (JStr "x") (Acked Toy.refusal))
    as (_ & Herr & _); [reflexivity|reflexivity|].
  exact Herr.
Defined.

Lemma updateStatus_notifies_on_change_witness :
  effects (updateStatus connected) Toy.fresh_session
  = [StatusListenerCall 21 connected].
Proof.
  destruct (updateStatus_notifies_on_change Toy.fresh_session connected)
    as (_ & Hchange); [apply Reachable_run_calls, Reachable_initial|].
  destruct Hchange as (_ & Heff & _); [discriminate|]. exact Heff.
Defined.

Lemma status_listener_hears_only_changes_witness :
  let later :=
    [Call_deliver (Ev_connect false); Call_deliver Ev_disconnect;
     Call_updateToken "t1"; Call_deliver Ev_connect_error;
     Call_onStatusChange_unsubscribe 31; Call_deliver (Ev_connect true)] in
  let trace :=
    effects (onStatusChange 31) Toy.ready ++
    (run_calls later (state_after (onStatusChange 31) Toy.ready)).2 in
  status_calls_to 31 trace
  = [connecting; connected; disconnected; connecting; error] /\
  no_repeat (status_calls_to 31 trace).
Proof.
  split; [reflexivity|].
  apply (status_listener_hears_only_changes Toy.ready 31).
  - apply Reachable_run_calls, Reachable_initial.
  - repeat (apply List.Forall_cons; [discriminate|]). apply List.Forall_nil.
Defined.

End Witnesses.
End ApiSocketLifecycle.

(** * More properties of encryptor.ts: the batch loops *)

Module EncryptorBatchSpec.
Import Encryptor EncryptorBatch.

(** *** A decrypt loop without try/catch, whatever its step *)

Section DecryptLoop.
Variable f : bytes -> Result JSValue.
Variable loop : list bytes -> list JSValue -> Result (list JSValue).
Hypothesis loop_nil : forall acc, loop [] acc = Ok acc.
Hypothesis loop_cons : forall item rest acc,
  loop (item :: rest) acc = (v ← f item; loop rest (acc ++ [v])).

Lemma decrypt_loop_ok_iff (data : list bytes) (acc out : list JSValue) :
  loop data acc = Ok out <->
  exists vs, out = acc ++ vs /\ Forall2 (fun c v => f c = Ok v) data vs.
Proof using Type*.
  revert acc. induction data as [|item rest IH]; intros acc.
  - rewrite loop_nil. split.
    + intros [= <-]. exists []. by rewrite app_nil_r.
    + intros (vs & -> & Hvs). apply Forall2_nil_inv_l in Hvs as ->.
      by rewrite app_nil_r.
  - rewrite loop_cons. destruct (f item) as [v|e] eqn:Hitem; simpl.
    + rewrite IH. split.
      * intros (vs & -> & Hvs). exists (v :: vs).
        rewrite <- app_assoc. split; [done|]. by constructor.
      * intros (vs & -> & Hvs).
        apply Forall2_cons_inv_l in Hvs as (v' & vs' & Hv & Hvs & ->).
        exists vs'. rewrite <- app_assoc. simpl. split; [congruence|done].
    + split; [done|]. intros (vs & _ & Hvs).
      apply Forall2_cons_inv_l in Hvs as (v' & vs' & Hv & _). congruence.
Qed.

Lemma decrypt_loop_throw_iff (data : list bytes) (acc : list JSValue)
  (e : JSError) :
  loop data acc = Throw e <->
  exists before item after,
    data = before ++ item :: after /\
    Forall (fun c => exists v, f c = Ok v) before /\
    f item = Throw e.
Proof using Type*.
  revert acc. induction data as [|item rest IH]; intros acc.
  - rewrite loop_nil. split; [done|].
    intros (before & item & after & Hd & _). by destruct before.
  - rewrite loop_cons. destruct (f item) as [v|e'] eqn:Hitem; simpl.
    + rewrite IH. split.
      * intros (before & bad & after & -> & Hbefore & Hbad).
        exists (item :: before), bad, after. split; [done|].
        split; [|done]. constructor; [by exists v|done].
      * intros (before & bad & after & Hd & Hbefore & Hbad).
        destruct before as [|c before]; simpl in Hd.
        -- injection Hd as <- _. congruence.
        -- injection Hd as <- ->. exists before, bad, after.
           split; [done|]. split; [|done]. by inversion Hbefore.
    + split.
      * intros [= ->]. exists [], item, rest. by repeat split.
      * intros (before & bad & after & Hd & Hbefore & Hbad).
        destruct before as [|c before]; simpl in Hd.
        -- injection Hd as <- _. congruence.
        -- injection Hd as <- _. inversion Hbefore as [|? ? [v Hv] _].
           congruence.
Qed.

End DecryptLoop.

(** *** An encrypt loop, whatever its step *)

Section EncryptLoop.
Context {Rng A B : Type}.
Variable step : A -> Rng -> Result B * Rng.
Variable loop : list A -> list B -> Rng -> Result (list B) * Rng.
Hypothesis loop_nil : forall acc rng, loop [] acc rng = (Ok acc, rng).
Hypothesis loop_cons : forall item rest acc rng,
  loop (item :: rest) acc rng =
  match step item rng with
  | (Ok c, rng') => loop rest (acc ++ [c]) rng'
  | (Throw e, rng') => (Throw e, rng')
  end.

Lemma encrypt_loop_acc (data : list A) (acc : list B) (rng : Rng) :
  loop data acc rng =
  match loop data [] rng with
  | (Ok cs, rng') => (Ok (acc ++ cs), rng')
  | (Throw e, rng') => (Throw e, rng')
  end.
Proof using Type*.
  revert acc rng. induction data as [|item rest IH]; intros acc rng.
  - rewrite !loop_nil. by rewrite app_nil_r.
  - rewrite !loop_cons. destruct (step item rng) as [[c|e] rng']; [|done].
    rewrite (IH (acc ++ [c])), (IH ([] ++ [c])).
    destruct (loop rest [] rng') as [[cs|e] rng'']; [|done].
    by rewrite <- app_assoc.
Qed.

Lemma encrypt_loop_app (d1 d2 : list A) (rng : Rng) :
  loop (d1 ++ d2) [] rng = and_then (loop d1 [] rng) (loop d2 []).
Proof using Type*.
  revert rng. induction d1 as [|item rest IH]; intros rng; simpl.
  - rewrite loop_nil. unfold and_then.
    by destruct (loop d2 [] rng) as [[cs|e] rng'].
  - rewrite !loop_cons. destruct (step item rng) as [[c|e] rng']; [|done].
    rewrite (encrypt_loop_acc (rest ++ d2)), (encrypt_loop_acc rest), IH.
    unfold and_then.
    destruct (loop rest [] rng') as [[cs|e] rng1]; [|done].
    destruct (loop d2 [] rng1) as [[cs2|e] rng2]; [|done].
    by rewrite app_assoc.
Qed.

Lemma encrypt_loop_ok_inv (data : list A) (cs : list B) (rng rng' : Rng) :
  loop data [] rng = (Ok cs, rng') ->
  Forall2 (fun x c => exists r r', step x r = (Ok c, r')) data cs.
Proof using Type*.
  revert cs rng. induction data as [|item rest IH]; intros cs rng.
  - rewrite loop_nil. intros [= <- _]. constructor.
  - rewrite loop_cons.
    destruct (step item rng) as [[c|e] rng1] eqn:Hstep; [|done].
    rewrite encrypt_loop_acc.
    destruct (loop rest [] rng1) as [[cs1|e] rng2] eqn:Hrest; [|done].
    intros [= <- <-]. simpl. constructor; [by exists rng, rng1|by eapply IH].
Qed.

Lemma encrypt_loop_throw_iff (data : list A) (rng rng' : Rng) (e : JSError) :
  loop data [] rng = (Throw e, rng') <->
  exists before item after out rng1,
    data = before ++ item :: after /\
    loop before [] rng = (Ok out, rng1) /\
    step item rng1 = (Throw e, rng').
Proof using Type*.
  revert rng. induction data as [|item rest IH]; intros rng.
  - rewrite loop_nil. split; [done|].
    intros (before & item & after & out & rng1 & Hd & _). by destruct before.
  - rewrite loop_cons.
    destruct (step item rng) as [[c|e'] rng1] eqn:Hstep.
    + rewrite encrypt_loop_acc.
      destruct (loop rest [] rng1) as [[cs|e'] rng2] eqn:Hrest.
      * split; [done|].
        intros (before & bad & after & out & r & Hd & Hbefore & Hbad).
        destruct before as [|x before]; simpl in Hd.
        -- injection Hd as <- _. rewrite loop_nil in Hbefore.
           injection Hbefore as _ <-. congruence.
        -- injection Hd as <- ->. rewrite loop_cons, Hstep in Hbefore.
           rewrite encrypt_loop_acc in Hbefore.
           destruct (loop before [] rng1) as [[cs1|e1] r1] eqn:Hb; [|done].
           injection Hbefore as _ <-.
           assert (Hthrow : loop (before ++ bad :: after) [] rng1
                            = (Throw e, rng'))
             by (apply IH; by exists before, bad, after, cs1, r1).
           congruence.
      * rewrite <- Hrest, IH. split.
        -- intros (before & bad & after & out & r & -> & Hbefore & Hbad).
           exists (item :: before), bad, after, (c :: out), r.
           split; [done|]. split; [|done].
           rewrite loop_cons, Hstep, encrypt_loop_acc, Hbefore. done.
        -- intros (before & bad & after & out & r & Hd & Hbefore & Hbad).
           destruct before as [|x before]; simpl in Hd.
           ++ injection Hd as <- _. rewrite loop_nil in Hbefore.
              injection Hbefore as _ <-. congruence.
           ++ injection Hd as <- ->. rewrite loop_cons, Hstep in Hbefore.
              rewrite encrypt_loop_acc in Hbefore.
              destruct (loop before [] rng1) as [[cs1|e1] r1] eqn:Hb;
                [|done].
              injection Hbefore as _ <-.
              by exists before, bad, after, cs1, r1.
    + split.
      * intros [= -> ->]. exists [], item, rest, [], rng.
        by rewrite loop_nil.
      * intros (before & bad & after & out & r & Hd & Hbefore & Hbad).
        destruct before as [|x before]; simpl in Hd.
        -- injection Hd as <- _. rewrite loop_nil in Hbefore.
           injection Hbefore as _ <-. congruence.
        -- injection Hd as <- _. by rewrite loop_cons, Hstep in Hbefore.
Qed.

End EncryptLoop.

Section Schemes.
Context {Rng : Type} {LS : Libsodium Rng} {SO : Sodium} {B64 : Base64}
  {RN : RnEncryption} {JS : JSON} {RNE : RnEncryptionEncrypt Rng}
  {JSS : JSONStringify} {DEC : Decoding}.

(** X16.  A [decrypt] batch succeeds exactly when every item's decryption
    does, and then returns the items' results one for one, in the order of the
    input; for each of the three schemes. *)
Theorem decrypt_succeeds_iff (scheme : Scheme) (data : list bytes)
  (out : list JSValue) :
  decrypt scheme data = Ok out <->
  Forall2 (fun item v => decrypt_item scheme item = Ok v) data out.
Proof.
  destruct scheme as [self|self|self]; simpl.
  - unfold SecretBoxEncryption.decrypt.
    rewrite (decrypt_loop_ok_iff
               (fun c => decryptSecretBox c (SecretBoxEncryption.secretKey self))
               (SecretBoxEncryption.decrypt_loop self)) by done.
    split; [by intros (vs & -> & Hvs)|intros Hvs; by exists out].
  - unfold BoxEncryption.decrypt.
    rewrite (decrypt_loop_ok_iff
               (fun c => decryptBox c (BoxEncryption.privateKey self))
               (BoxEncryption.decrypt_loop self)) by done.
    split; [by intros (vs & -> & Hvs)|intros Hvs; by exists out].
  - unfold AES256Encryption.decrypt.
    rewrite EncryptorSpec.aes_decrypt_loop_total. simpl. split.
    + intros [= <-]. apply Forall2_fmap_r, Forall_Forall2_diag.
      by apply Forall_forall.
    + intros Hall. f_equal.
      induction Hall as [|c v data out Hc _ IH]; simpl; [done|].
      injection Hc as <-. by rewrite IH.
Qed.

(** X17.  A [decrypt] batch of the secret-box or the box scheme throws
    exactly when the libsodium wrapper throws on some item while it returned
    on all items before it; the batch then throws that item's error and
    returns nothing.  The AES scheme never throws. *)
Theorem decrypt_throws_iff (scheme : Scheme) (data : list bytes)
  (e : JSError) :
  decrypt scheme data = Throw e <->
  exists before item after,
    data = before ++ item :: after /\
    Forall (fun c => exists v, decrypt_item scheme c = Ok v) before /\
    decrypt_item scheme item = Throw e.
Proof.
  destruct scheme as [self|self|self]; simpl.
  - apply (decrypt_loop_throw_iff
             (fun c => decryptSecretBox c (SecretBoxEncryption.secretKey self))
             (SecretBoxEncryption.decrypt_loop self)); done.
  - apply (decrypt_loop_throw_iff
             (fun c => decryptBox c (BoxEncryption.privateKey self))
             (BoxEncryption.decrypt_loop self)); done.
  - unfold AES256Encryption.decrypt.
    rewrite EncryptorSpec.aes_decrypt_loop_total. split; [done|].
    by intros (before & item & after & _ & _ & ?).
Qed.

(** X18.  Encrypting a batch is encrypting its first part and then, on the
    random source the first part left, the rest: the ciphertexts of
    [d1 ++ d2] are those of [d1] followed by those of [d2], and the rest is
    not touched when the first part throws.  For each of the three
    schemes. *)
Theorem encrypt_batches_compose (secretBox : SecretBoxEncryption.t)
  (box : BoxEncryption.t) (aes : AES256Encryption.t)
  (d1 d2 : list JSValue) (rng : Rng) :
  SecretBoxEncryption.encrypt secretBox (d1 ++ d2) rng
  = and_then (SecretBoxEncryption.encrypt secretBox d1 rng)
             (SecretBoxEncryption.encrypt secretBox d2) /\
  BoxEncryption.encrypt box (d1 ++ d2) rng
  = and_then (BoxEncryption.encrypt box d1 rng)
             (BoxEncryption.encrypt box d2) /\
  AES256Encrypt.encrypt aes (d1 ++ d2) rng
  = and_then (AES256Encrypt.encrypt aes d1 rng)
             (AES256Encrypt.encrypt aes d2).
Proof.
  split; [|split].
  - apply (encrypt_loop_app
             (fun x => encryptSecretBox x (SecretBoxEncryption.secretKey secretBox))
             (SecretBoxEncryption.encrypt_loop secretBox)); [done|].
    intros item rest acc r; simpl. by destruct (encryptSecretBox _ _ _) as [[]].
  - apply (encrypt_loop_app
             (fun x => encryptBox x (BoxEncryption.publicKey box))
             (BoxEncryption.encrypt_loop box)); [done|].
    intros item rest acc r; simpl. by destruct (encryptBox _ _ _) as [[]].
  - apply (encrypt_loop_app (aes_encrypt_item aes)
             (AES256Encrypt.encrypt_loop aes)); [done|].
    intros item rest acc r; simpl. unfold aes_encrypt_item.
    destruct (JSON_stringify item) as [js|]; [|done].
    destruct (crypto_encryptAES _ _ _) as [[enc|] r']; [|done].
    by destruct (AES256Encrypt.reparse enc).
Qed.

(** X19.  A successful [encrypt] returns one output per input item, in the
    order of the input, and the output at each position is what the scheme's
    primitive returned for the item at that position.  For each of the three
    schemes. *)
Theorem encrypt_one_output_per_item (secretBox : SecretBoxEncryption.t)
  (box : BoxEncryption.t) (aes : AES256Encryption.t)
  (data : list JSValue) (rng : Rng) :
  (forall cs rng',
     SecretBoxEncryption.encrypt secretBox data rng = (Ok cs, rng') ->
     length cs = length data /\
     Forall2 (fun x c => exists r r',
                encryptSecretBox x (SecretBoxEncryption.secretKey secretBox) r
                = (Ok c, r')) data cs) /\
  (forall cs rng',
     BoxEncryption.encrypt box data rng = (Ok cs, rng') ->
     length cs = length data /\
     Forall2 (fun x c => exists r r',
                encryptBox x (BoxEncryption.publicKey box) r = (Ok c, r'))
       data cs) /\
  (forall vs rng',
     AES256Encrypt.encrypt aes data rng = (Ok vs, rng') ->
     length vs = length data /\
     Forall2 (fun x v => exists r r',
                aes_encrypt_item aes x r = (Ok v, r')) data vs).
Proof.
  split; [|split]; intros cs rng' Hrun.
  - assert (Hall := encrypt_loop_ok_inv
      (fun x => encryptSecretBox x (SecretBoxEncryption.secretKey secretBox))
      (SecretBoxEncryption.encrypt_loop secretBox)
      (fun acc r => eq_refl) (fun item rest acc r => eq_refl)
      data cs rng rng' Hrun).
    split; [symmetry; by eapply Forall2_length|done].
  - assert (Hall := encrypt_loop_ok_inv
      (fun x => encryptBox x (BoxEncryption.publicKey box))
      (BoxEncryption.encrypt_loop box)
      (fun acc r => eq_refl) (fun item rest acc r => eq_refl)
      data cs rng rng' Hrun).
    split; [symmetry; by eapply Forall2_length|done].
  - assert (Hall : Forall2 (fun x v => exists r r',
                      aes_encrypt_item aes x r = (Ok v, r')) data cs).
    { apply (encrypt_loop_ok_inv (aes_encrypt_item aes)
               (AES256Encrypt.encrypt_loop aes)) with rng rng';
        [done| |done].
      intros item rest acc r; simpl. unfold aes_encrypt_item.
      destruct (JSON_stringify item) as [js|]; [|done].
      destruct (crypto_encryptAES _ _ _) as [[enc|] r']; [|done].
      by destruct (AES256Encrypt.reparse enc). }
    split; [symmetry; by eapply Forall2_length|done].
Qed.

(** X20.  [encrypt] throws exactly when the scheme's primitive throws on
    some item after the items before it were encrypted; it then throws that
    item's error, returns no ciphertext, and leaves the random source as the
    failing call left it, so that no later item is encrypted.  For each of the
    three schemes; for AES the primitive is the chain of [JSON.stringify],
    [encryptAES], the two decodings and [JSON.parse], none of which is
    caught. *)
Theorem encrypt_throws_iff (secretBox : SecretBoxEncryption.t)
  (box : BoxEncryption.t) (aes : AES256Encryption.t)
  (data : list JSValue) (rng rng' : Rng) (e : JSError) :
  (SecretBoxEncryption.encrypt secretBox data rng = (Throw e, rng') <->
   exists before item after cs rng1,
     data = before ++ item :: after /\
     SecretBoxEncryption.encrypt secretBox before rng = (Ok cs, rng1) /\
     encryptSecretBox item (SecretBoxEncryption.secretKey secretBox) rng1
     = (Throw e, rng')) /\
  (BoxEncryption.encrypt box data rng = (Throw e, rng') <->
   exists before item after cs rng1,
     data = before ++ item :: after /\
     BoxEncryption.encrypt box before rng = (Ok cs, rng1) /\
     encryptBox item (BoxEncryption.publicKey box) rng1 = (Throw e, rng')) /\
  (AES256Encrypt.encrypt aes data rng = (Throw e, rng') <->
   exists before item after vs rng1,
     data = before ++ item :: after /\
     AES256Encrypt.encrypt aes before rng = (Ok vs, rng1) /\
     aes_encrypt_item aes item rng1 = (Throw e, rng')).
Proof.
  split; [|split].
  - apply (encrypt_loop_throw_iff
             (fun x => encryptSecretBox x (SecretBoxEncryption.secretKey secretBox))
             (SecretBoxEncryption.encrypt_loop secretBox)); [done|].
    intros item rest acc r; simpl. by destruct (encryptSecretBox _ _ _) as [[]].
  - apply (encrypt_loop_throw_iff
             (fun x => encryptBox x (BoxEncryption.publicKey box))
             (BoxEncryption.encrypt_loop box)); [done|].
    intros item rest acc r; simpl. by destruct (encryptBox _ _ _) as [[]].
  - apply (encrypt_loop_throw_iff (aes_encrypt_item aes)
             (AES256Encrypt.encrypt_loop aes)); [done|].
    intros item rest acc r; simpl. unfold aes_encrypt_item.
    destruct (JSON_stringify item) as [js|]; [|done].
    destruct (crypto_encryptAES _ _ _) as [[enc|] r']; [|done].
    by destruct (AES256Encrypt.reparse enc).
Qed.

End Schemes.

Section Witnesses.
Local Existing Instances Toy.libsodium Toy.sodium Toy.base64 Toy.rnEncryption
  Toy.json ToyEncrypt.jsonStringify ToyEncrypt.rnEncryptionEncrypt
  ToyEncrypt.decoding.

Lemma encrypt_one_output_per_item_witness :
  (exists cs,
     SecretBoxEncryption.encrypt Toy.secretBox [JBool true; JNull] 5
     = (Ok cs, 7) /\ length cs = 2) /\
  (exists cs,
     BoxEncryption.encrypt Toy.box [JBool true; JNull] 5 = (Ok cs, 7) /\
     length cs = 2) /\
  (exists vs,
     AES256Encrypt.encrypt Toy.aes [JBool true; JNull] 5 = (Ok vs, 7) /\
     length vs = 2).
Proof.
  destruct (encrypt_one_output_per_item Toy.secretBox Toy.box Toy.aes
              [JBool true; JNull] 5) as (Hsb & Hbox & Haes).
  split; [|split].
  - eexists. split; [reflexivity|]. eapply Hsb. reflexivity.
  - eexists. split; [reflexivity|]. eapply Hbox. reflexivity.
  - eexists. split; [reflexivity|]. eapply Haes. reflexivity.
Defined.

(** The stand-in AES path on a batch whose second item has no JSON text:
    the first item is encrypted, the call throws, the third is not
    reached. *)
Example aes_encrypt_stops_at_first_failure :
  AES256Encrypt.encrypt Toy.aes [JBool true; JStr "x"; JNull] 5
  = (Throw (Error "value cannot be serialised"), 6).
Proof. reflexivity. Qed.

End Witnesses.
End EncryptorBatchSpec.

(** * Properties of [updateMachineMetadata] and [request] *)

Module ApiSocketRequestsSpec.
Import ApiSocket ApiSocketRequests ApiSocketSpec.
Section WithApiEncryption.
Context {AE : ApiEncryptionModule}.

Lemma Reachable_initialized_if_connected (st : State) :
  Reachable st -> initialized_if_connected st.
Proof.
  induction 1 as [|st c _ IH].
  - split; by intros [? [=]].
  - by apply initialized_run_call.
Qed.

(** X21.  [updateMachineMetadata] sends at most one message, and only
    through a socket that exists and is connected: otherwise it rejects with
    'Socket not connected' and nothing is sent.  What it sends is one
    'machine-update-metadata' event carrying the caller's parameters as they
    are under a 10 second timeout, so the call always settles: with the
    acknowledgement, or with the timeout error.  [daemonRpc] has the weaker
    guard: with a socket object whose transport is down it still hands its
    call to socket.io, where [updateMachineMetadata] refuses at once. *)
Theorem updateMachineMetadata_guarded (st : State) (params : MetadataUpdate)
  (connected : bool) (ack : MetadataAck) :
  let call := updateMachineMetadata params connected ack st in
  call.1 <> Pending /\
  (is_Some (socket st) /\ connected = true <->
   call.2 = [EmitMetadataUpdate 10000 "machine-update-metadata" params]) /\
  (socket st = None \/ connected = false <->
   call = (Rejected (Error "Socket not connected"), [])) /\
  (forall reply, call.1 = Resolved reply -> ack = MetadataAcked reply) /\
  (forall sock enc machineId method_ params_ c rpc_ack,
     socket st = Some sock -> encryption st = Some enc ->
     encryptRaw enc params_ = Ok c -> connected = false ->
     call.2 = [] /\
     EmitWithAck (Some 15000%Z) "rpc-call"
       {| method := machineId +:+ ":" +:+ method_; params := c |}
     ∈ effects (daemonRpc machineId method_ params_ rpc_ack) st).
Proof.
  unfold updateMachineMetadata.
  assert (Hsome : forall sock : Socket, is_Some (Some sock)) by (by eexists).
  cbv zeta. split; [|split; [|split; [|split]]].
  - by destruct (socket st), connected, ack.
  - destruct (socket st) as [sock|], connected, ack as [reply|]; simpl;
      split;
      solve [ done | by intros [[? [=]] ?] | by intros [? [=]]
            | by intros _; split; [apply Hsome|] ].
  - destruct (socket st) as [sock|], connected, ack as [reply|]; simpl;
      split;
      solve [ done | by intros [[=]|[=]] | by intros _; left
            | by intros _; right ].
  - destruct (socket st) as [sock|], connected, ack as [reply|]; simpl;
      solve [ by intros ? [= <-] | by intros ? [=] ].
  - intros sock enc machineId method_ params_ c rpc_ack Hsock Henc Hc ->.
    rewrite Hsock. split; [done|]. unfold effects.
    rewrite (run_daemonRpc_called st sock enc) by done. rewrite Hc.
    destruct rpc_ack as [response|]; simpl.
    + destruct (ok response); [destruct (decryptRaw _ _)|];
        apply list_elem_of_further, list_elem_of_here.
    + apply list_elem_of_further, list_elem_of_here.
Qed.


(** X23.  [request] checks the configuration first and the credentials
    second.  Without a configuration it rejects with
    'SyncSocket not initialized' and does not read the credentials; without
    credentials it rejects with 'No authentication credentials', or with the
    error the credential store threw.  It calls [fetch] only when it has
    both; and in every state the object can reach, a missing configuration
    means that [initialize] was not called: there is no socket then, and
    [updateMachineMetadata] rejects as well. *)
Theorem request_guards {Response : Type} (st : State) (path : string)
  (options : option RequestInit) (credentials : Result (option Credentials))
  (response : Result Response) :
  let call := request path options credentials response st in
  (config st = None ->
   call = (Rejected (Error "SyncSocket not initialized"), [])) /\
  (is_Some (config st) ->
   head call.2 = Some GetCredentials /\
   (credentials = Ok None ->
    call = (Rejected (Error "No authentication credentials"),
            [GetCredentials])) /\
   (forall e, credentials = Throw e ->
              call = (Rejected e, [GetCredentials]))) /\
  ((exists url init, Fetch url init ∈ call.2) <->
   is_Some (config st) /\ exists creds, credentials = Ok (Some creds)) /\
  (Reachable st -> config st = None ->
   forall params connected ack,
     updateMachineMetadata params connected ack st
     = (Rejected (Error "Socket not connected"), [])).
Proof.
  unfold request. split; [by intros ->|]. split; [|split].
  - intros [cfg ->]. destruct credentials as [[creds|]|e]; simpl;
      (split; [done|]); split; try done; by intros ? [= ->].
  - destruct (config st) as [cfg|]; simpl.
    + destruct credentials as [[creds|]|e]; simpl; split.
      * intros _. split; [done|]. by exists creds.
      * intros _. eexists _, _. apply list_elem_of_further, list_elem_of_here.
      * intros (url & init & Hin).
        apply list_elem_of_singleton in Hin. done.
      * by intros [_ [? [=]]].
      * intros (url & init & Hin).
        apply list_elem_of_singleton in Hin. done.
      * by intros [_ [? [=]]].
    + split.
      * intros (url & init & Hin). by apply elem_of_nil in Hin.
      * by intros [[? [=]] _].
  - intros Hreach Hcfg params connected ack.
    destruct (Reachable_initialized_if_connected st Hreach) as [Hsock _].
    unfold updateMachineMetadata. destruct (socket st) as [sock|]; [|done].
    destruct Hsock as [cfg Hsome]; [done|]. congruence.
Qed.

End WithApiEncryption.

Section Witnesses.
Local Existing Instance Toy.apiEncryption.


End Witnesses.
End ApiSocketRequestsSpec.

(** * Properties of the machine screen *)

Module MachineDetailScreenSpec.
Import MachineDetailScreen.

(** *** The session list and the recent paths *)




(** *** The error text *)

Lemma prefix_spec (p s : string) :
  String.prefix p s = true <-> exists b, s = p +:+ b.
Proof.
  revert s. induction p as [|a p IH]; intros s; simpl.
  - destruct s; simpl; split; eauto.
  - destruct s as [|c s]; simpl.
    + split; [done|]. by intros [b ?].
    + destruct (Ascii.ascii_dec a c) as [->|Hne].
      * rewrite IH. split.
        -- intros [b ->]. by exists b.
        -- intros [b [= ->]]. by exists b.
      * split; [done|]. intros [b [= ? _]]. congruence.
Qed.

Lemma includes_spec (search s : string) :
  includes search s = true <-> exists a b, s = a +:+ search +:+ b.
Proof.
  induction s as [|c s IH]; cbn [includes].
  - destruct (String.prefix search EmptyString) eqn:Hp.
    + split; [|done]. intros _.
      apply prefix_spec in Hp as [b Hb]. by exists EmptyString, b.
    + split; [done|]. intros (a & b & Hab).
      destruct a; [|done]. simpl in Hab.
      assert (String.prefix search EmptyString = true)
        by (apply prefix_spec; by exists b).
      congruence.
  - destruct (String.prefix search (String c s)) eqn:Hp.
    + split; [|done]. intros _.
      apply prefix_spec in Hp as [b Hb]. by exists EmptyString, b.
    + rewrite IH. split.
      * intros (a & b & ->). by exists (String c a), b.
      * intros (a & b & Hab). destruct a as [|c' a]; simpl in Hab.
        -- assert (String.prefix search (String c s) = true)
             by (apply prefix_spec; by exists b).
           congruence.
        -- injection Hab as _ ->. by exists a, b.
Qed.

(** X25.  The text shown for a failed start depends on the caught value
    alone.  An [Error] whose message contains 'timeout' anywhere gives the
    timed-out text, also when it contains 'Socket not connected' as well;
    an [Error] whose message contains 'Socket not connected' and not
    'timeout' gives the not-connected text; every other [Error] and every
    caught value that is no [Error] gives the general text. *)
Theorem errorMessage_precedence (error : Thrown) :
  let contains search s := exists a b, s = a +:+ search +:+ b in
  (errorMessage error
   = "Session startup timed out. The machine may be slow or the daemon may not be responding."
   <-> exists message,
         error = ErrorInstance message /\ contains "timeout" message) /\
  (errorMessage error
   = "Not connected to server. Check your internet connection."
   <-> exists message,
         error = ErrorInstance message /\
         contains "Socket not connected" message /\
         ~ contains "timeout" message) /\
  (errorMessage error
   = "Failed to start session. Make sure the daemon is running on the target machine."
   <-> forall message,
         error = ErrorInstance message ->
         ~ contains "timeout" message /\
         ~ contains "Socket not connected" message).
Proof.
  intros contains.
  assert (Hinc : forall search s,
            includes search s = true <-> contains search s)
    by apply includes_spec.
  destruct error as [message|v]; simpl.
  - destruct (includes "timeout" message) eqn:Ht;
      [|destruct (includes "Socket not connected" message) eqn:Hs].
    + apply Hinc in Ht. split; [|split].
      * split; [|done]. intros _. by exists message.
      * split; [done|]. by intros (m & [= <-] & _ & Hno).
      * split; [done|]. intros Hall. by destruct (Hall message).
    + apply Hinc in Hs.
      assert (Hno : ~ contains "timeout" message)
        by (rewrite <- Hinc; congruence).
      split; [|split].
      * split; [done|]. by intros (m & [= <-] & Hyes).
      * split; [|done]. intros _. by exists message.
      * split; [done|]. intros Hall. by destruct (Hall message) as [_ ?].
    + assert (Hno : ~ contains "timeout" message)
        by (rewrite <- Hinc; congruence).
      assert (Hno' : ~ contains "Socket not connected" message)
        by (rewrite <- Hinc; congruence).
      split; [|split].
      * split; [done|]. by intros (m & [= <-] & Hyes).
      * split; [done|]. by intros (m & [= <-] & Hyes & _).
      * split; [|done]. by intros _ m [= <-].
  - split; [|split].
    + split; [done|]. by intros (m & [=] & _).
    + split; [done|]. by intros (m & [=] & _).
    + split; [|done]. by intros _ m [=].
Qed.

(** *** Polling for the new session *)

Lemma find_present (sessionId : string) (sessions : list Session) :
  present sessionId sessions
  = bool_decide (is_Some (find (fun s => bool_decide (session_id s = sessionId))
                            sessions)).
Proof.
  unfold present. apply bool_decide_ext.
  induction sessions as [|s sessions IH]; simpl.
  - split; [by intros ?%elem_of_nil|by intros [? [=]]].
  - rewrite elem_of_cons. destruct (bool_decide_reflect (session_id s = sessionId))
      as [Heq|Hne].
    + split; [by eexists|by left].
    + rewrite <- IH. split; [intros [?|?]; [done|done]|by right].
Qed.

Lemma pollForSession_present (sessionId : string) (attempts : nat)
  (sessions : list Session) :
  present sessionId sessions = true ->
  pollForSession sessionId attempts sessions
  = ([GetState;
      ConsoleLog "📱 Navigating to session:" (Some (LogString sessionId));
      RouterReplace ("/session/" +:+ sessionId)], None).
Proof.
  rewrite find_present. intros [s Hs]%bool_decide_eq_true.
  unfold pollForSession. by rewrite Hs.
Qed.

Lemma pollForSession_absent (sessionId : string) (attempts : nat)
  (sessions : list Session) :
  present sessionId sessions = false ->
  pollForSession sessionId attempts sessions
  = if S attempts <? maxAttempts
    then ([GetState; SetTimeout pollInterval], Some (S attempts))
    else ([GetState;
           ConsoleLog "⏰ Polling timeout - session should appear soon" None;
           ModalAlert "Session started"
             "The session was started but may take a moment to appear."],
          None).
Proof.
  rewrite find_present. intros Hno%bool_decide_eq_false.
  unfold pollForSession.
  destruct (find _ sessions) as [s|]; [|done]. destruct Hno. by eexists.
Qed.

(** The last run of the polling that began with [n] fruitless runs. *)
Lemma polling_from (sessionId : string) (store : nat -> list Session)
  (fuel attempts k : nat) :
  attempts < maxAttempts -> maxAttempts - attempts <= fuel ->
  exists n,
    attempts + n < maxAttempts /\
    (forall j, j < n -> present sessionId (store (k + j)) = false) /\
    (present sessionId (store (k + n)) = false ->
     S (attempts + n) = maxAttempts) /\
    polling fuel sessionId attempts store k
    = (concat (replicate n [GetState; SetTimeout pollInterval])
       ++ (pollForSession sessionId (attempts + n) (store (k + n))).1, true).
Proof.
  revert attempts k. induction fuel as [|fuel IH]; intros attempts k Ha Hfuel;
    [lia|].
  cbn [polling].
  destruct (present sessionId (store k)) eqn:Hk.
  - exists 0. rewrite !Nat.add_0_r. split; [done|].
    split; [intros j; lia|]. split; [congruence|].
    by rewrite pollForSession_present.
  - rewrite pollForSession_absent by done.
    destruct (Nat.ltb_spec (S attempts) maxAttempts) as [Hlt|Hge].
    + destruct (IH (S attempts) (S k)) as (n & Hn & Habsent & Hlast & Hrun);
        [done|lia|].
      exists (S n). split; [lia|]. split; [|split].
      * intros [|j] Hj; [by rewrite Nat.add_0_r|].
        replace (k + S j) with (S k + j) by lia. apply Habsent. lia.
      * replace (k + S n) with (S k + n) by lia.
        intros Hno. specialize (Hlast Hno). lia.
      * rewrite Hrun. simpl.
        replace (k + S n) with (S (k + n)) by lia.
        by replace (attempts + S n) with (S (attempts + n)) by lia.
    + exists 0. rewrite !Nat.add_0_r. split; [done|].
      split; [intros j; lia|]. split; [lia|].
      rewrite pollForSession_absent by done.
      destruct (Nat.ltb_spec (S attempts) maxAttempts); [lia|done].
Qed.

Lemma omap_rounds {B : Type} (g : UiEffect -> option B) (n : nat)
  (round last : list UiEffect) :
  omap g (concat (replicate n round) ++ last)
  = concat (replicate n (omap g round)) ++ omap g last.
Proof.
  induction n as [|n IH]; [done|].
  cbn [replicate concat]. by rewrite <- app_assoc, omap_app, IH, app_assoc.
Qed.

Lemma concat_replicate_nil {B : Type} (n : nat) :
  concat (replicate n (@nil B)) = [].
Proof. by induction n. Qed.

Lemma concat_replicate_singleton {B : Type} (n : nat) (x : B) :
  concat (replicate n [x]) = replicate n x.
Proof. induction n as [|n IH]; [done|]. simpl. by rewrite IH. Qed.

Lemma readers_of_waiting (n : nat) (last : list UiEffect) :
  let t := concat (replicate n [GetState; SetTimeout pollInterval]) ++ last in
  store_reads t = n + store_reads last /\
  delays t = replicate n pollInterval ++ delays last /\
  alerts t = alerts last /\
  navigations t = navigations last /\
  spawn_calls t = spawn_calls last.
Proof.
  unfold store_reads, delays, alerts, navigations, spawn_calls.
  rewrite !omap_rounds. cbn [omap list_omap].
  rewrite !concat_replicate_nil, !concat_replicate_singleton.
  rewrite length_app, length_replicate. done.
Qed.

(** The polling from the first run on. *)
Lemma polling_result (sessionId : string) (store : nat -> list Session)
  (fuel : nat) :
  maxAttempts <= fuel ->
  exists n,
    n < 20 /\
    (forall j, j < n -> present sessionId (store j) = false) /\
    (present sessionId (store n) = false -> n = 19) /\
    polling fuel sessionId 0 store 0
    = (concat (replicate n [GetState; SetTimeout pollInterval]) ++
       (if present sessionId (store n)
        then [GetState;
              ConsoleLog "📱 Navigating to session:"
                (Some (LogString sessionId));
              RouterReplace ("/session/" +:+ sessionId)]
        else [GetState;
              ConsoleLog "⏰ Polling timeout - session should appear soon"
                None;
              ModalAlert "Session started"
                "The session was started but may take a moment to appear."]),
       true).
Proof.
  intros Hfuel.
  destruct (polling_from sessionId store fuel 0 0)
    as (n & Hn & Habsent & Hlast & Hrun);
    [unfold maxAttempts; lia|lia|].
  simpl in Hn, Habsent, Hlast, Hrun. unfold maxAttempts in Hn, Hlast.
  exists n. split; [done|]. split; [done|].
  split; [intros Hno; specialize (Hlast Hno); lia|].
  rewrite Hrun. f_equal. f_equal.
  destruct (present sessionId (store n)) eqn:Hp.
  - by rewrite pollForSession_present.
  - rewrite pollForSession_absent by done. specialize (Hlast eq_refl).
    destruct (Nat.ltb_spec (S n) maxAttempts) as [Hlt|];
      [unfold maxAttempts in Hlt; lia|done].
Qed.

(** X27.  After a session was spawned, the screen looks for it in the store
    at most 20 times, 100 ms apart, and then stops by itself.  It navigates
    to the session at the first read that finds it, and polls no further;
    when none of the 20 reads finds it, it shows 'Session started' instead.
    Exactly one of the two happens, once. *)
Theorem polling_ends_within_20_reads (sessionId : string)
  (store : nat -> list Session) (fuel : nat) :
  maxAttempts <= fuel ->
  exists n,
    n < 20 /\
    (forall j, j < n -> present sessionId (store j) = false) /\
    (present sessionId (store n) = false -> n = 19) /\
    polling fuel sessionId 0 store 0
    = (concat (replicate n [GetState; SetTimeout pollInterval]) ++
       (if present sessionId (store n)
        then [GetState;
              ConsoleLog "📱 Navigating to session:"
                (Some (LogString sessionId));
              RouterReplace ("/session/" +:+ sessionId)]
        else [GetState;
              ConsoleLog "⏰ Polling timeout - session should appear soon"
                None;
              ModalAlert "Session started"
                "The session was started but may take a moment to appear."]),
       true) /\
    let t := (polling fuel sessionId 0 store 0).1 in
    store_reads t = S n /\
    delays t = replicate n pollInterval /\
    (navigations t, alerts t)
    = if present sessionId (store n)
      then (["/session/" +:+ sessionId], [])
      else ([], [("Session started",
                  "The session was started but may take a moment to appear.")]).
Proof.
  intros Hfuel.
  destruct (polling_result sessionId store fuel Hfuel)
    as (n & Hn & Habsent & Hlast & Hrun).
  exists n. split; [done|]. split; [done|]. split; [done|].
  rewrite Hrun. split; [done|]. cbv zeta. cbn [fst].
  destruct (readers_of_waiting n
    (if present sessionId (store n)
      then [GetState;
            ConsoleLog "📱 Navigating to session:"
              (Some (LogString sessionId));
            RouterReplace ("/session/" +:+ sessionId)]
      else [GetState;
            ConsoleLog "⏰ Polling timeout - session should appear soon"
              None;
            ModalAlert "Session started"
              "The session was started but may take a moment to appear."]))
    as (Hr & Hd & Ha & Hnav & _).
  rewrite Hr, Hd, Ha, Hnav.
  unfold store_reads, delays, alerts, navigations.
  destruct (present sessionId (store n)); simpl;
    (split; [lia|]); by rewrite app_nil_r.
Qed.

(** X28.  [handleStartSession] does nothing at all without a machine id.
    With one, it calls [spawnRemoteSession] once, with the machine and the
    path, and ends in exactly one of three ways.  When the spawn fails, it
    shows one 'Error' dialog with the text for that error and rejects with the
    same error.  When the reply has no session id, it rejects with 'Session
    spawning failed - no session ID returned.' after one 'Error' dialog with
    the general text.  In both cases it neither polls nor navigates.
    Otherwise its promise is fulfilled, no 'Error' dialog is shown, and the
    polling ends within 20 reads either in one navigation to the session or in
    one 'Session started' dialog. *)
Theorem handleStartSession_outcomes (path : string) (spawned : SpawnOutcome)
  (store : nat -> list Session) (fuel : nat) :
  maxAttempts <= fuel ->
  handleStartSession None path spawned store fuel = (Fulfilled, []) /\
  handleStartSession (Some EmptyString) path spawned store fuel
  = (Fulfilled, []) /\
  forall machineId, machineId <> EmptyString ->
    let call := handleStartSession (Some machineId) path spawned store fuel in
    spawn_calls call.2 = [(machineId, path)] /\
    match spawned with
    | SpawnFailed error =>
        call.1 = RejectedWith error /\
        alerts call.2 = [("Error", errorMessage error)] /\
        navigations call.2 = [] /\ store_reads call.2 = 0
    | Spawned result =>
        match sessionId result with
        | None | Some EmptyString =>
            call.1 = RejectedWith
                       (ErrorInstance
                          "Session spawning failed - no session ID returned.")
            /\
            alerts call.2
            = [("Error",
                "Failed to start session. Make sure the daemon is running on the target machine.")]
            /\
            navigations call.2 = [] /\ store_reads call.2 = 0
        | Some sid =>
            call.1 = Fulfilled /\
            1 <= store_reads call.2 <= 20 /\
            ((navigations call.2 = ["/session/" +:+ sid] /\
              alerts call.2 = []) \/
             (navigations call.2 = [] /\
              alerts call.2
              = [("Session started",
                  "The session was started but may take a moment to appear.")]))
        end
    end.
Proof.
  intros Hfuel. split; [done|]. split; [done|].
  intros machineId Hid. destruct machineId as [|ch rest]; [done|].
  cbv zeta. destruct spawned as [[[sid|]]|error]; cbn [handleStartSession].
  - destruct sid as [|c sid]; [by repeat split|].
    cbn [sessionId fst snd].
    destruct (polling_result (String c sid) store fuel Hfuel)
      as (n & Hn & _ & _ & Hrun).
    rewrite Hrun. cbn [fst].
    destruct (readers_of_waiting n
      (if present (String c sid) (store n)
        then [GetState;
              ConsoleLog "📱 Navigating to session:"
                (Some (LogString (String c sid)));
              RouterReplace ("/session/" +:+ String c sid)]
        else [GetState;
              ConsoleLog "⏰ Polling timeout - session should appear soon"
                None;
              ModalAlert "Session started"
                "The session was started but may take a moment to appear."]))
      as (Hr & _ & Ha & Hnav & Hs).
    cbv zeta in Hr, Ha, Hnav, Hs.
    remember (concat (replicate n [GetState; SetTimeout pollInterval]) ++ _)
      as later eqn:Hlater in *.
    unfold store_reads, alerts, navigations, spawn_calls in *.
    rewrite !omap_app, !length_app, Hr, Ha, Hnav, Hs.
    clear Hlater Hr Ha Hnav Hs.
    destruct (present (String c sid) (store n)); simpl.
    + split; [done|]. split; [done|]. split; [lia|]. by left.
    + split; [done|]. split; [done|]. split; [lia|]. by right.
  - by repeat split.
  - by repeat split.
Qed.


(** *** The errors of [daemonRpc] on the screen *)

Section WithApiEncryption.
Context {AE : ApiEncryptionModule}.

(** X26.  The errors [daemonRpc] rejects with, given as they are to the
    screen's choice of text.  'Socket not connected' (no socket) is shown as
    'Not connected to server. Check your internet connection.'.  The error of
    a call that was sent and not acknowledged within 15 seconds, whose
    message is 'operation has timed out', is shown with the general text and
    not with the timed-out text, which looks for 'timeout'; so is a refusal
    that carries no error text. *)
Theorem daemonRpc_errors_on_screen (st : ApiSocket.State)
  (machineId method_ : string) (params_ : JSValue) :
  let shown ack text :=
    exists message,
      ApiSocket.outcome (ApiSocket.daemonRpc machineId method_ params_ ack) st
      = ApiSocket.Rejected (Error message) /\
      errorMessage (ErrorInstance message) = text in
  (ApiSocket.socket st = None ->
   forall ack,
     shown ack "Not connected to server. Check your internet connection.") /\
  (forall sock enc c,
     ApiSocket.socket st = Some sock -> ApiSocket.encryption st = Some enc ->
     encryptRaw enc params_ = Ok c ->
     shown ApiSocket.NoAck
       "Failed to start session. Make sure the daemon is running on the target machine."
     /\
     forall response,
       ApiSocket.ok response = false -> ApiSocket.error_ response = None ->
       shown (ApiSocket.Acked response)
         "Failed to start session. Make sure the daemon is running on the target machine.").
Proof.
  intros shown. unfold shown, ApiSocket.outcome. split.
  - intros Hsock ack. rewrite ApiSocketSpec.run_daemonRpc_null by auto.
    rewrite Hsock. by eexists.
  - intros sock enc c Hsock Henc Hc. split.
    + rewrite (ApiSocketSpec.run_daemonRpc_called st sock enc) by done.
      rewrite Hc. by eexists.
    + intros response Hok Herr.
      rewrite (ApiSocketSpec.run_daemonRpc_called st sock enc) by done.
      rewrite Hc, Hok, Herr. by eexists.
Qed.

End WithApiEncryption.

Section Witnesses.

Lemma polling_ends_within_20_reads_witness :
  exists n,
    n < 20 /\
    store_reads (polling 20 "s-2" 0 ToyScreen.store 0).1 = S n.
Proof.
  destruct (polling_ends_within_20_reads "s-2" ToyScreen.store 20)
    as (n & Hn & _ & _ & _ & Hreads & _); [unfold maxAttempts; lia|].
  by exists n.
Defined.

Lemma handleStartSession_outcomes_witness :
  (handleStartSession (Some "m1") "/srv/db"
     (Spawned {| sessionId := Some "s-2" |}) ToyScreen.store 20).1
  = Fulfilled /\
  spawn_calls
    (handleStartSession (Some "m1") "/srv/db"
       (Spawned {| sessionId := Some "s-2" |}) ToyScreen.store 20).2
  = [("m1", "/srv/db")].
Proof.
  destruct (handleStartSession_outcomes "/srv/db"
              (Spawned {| sessionId := Some "s-2" |}) ToyScreen.store 20)
    as (_ & _ & Hcall); [unfold maxAttempts; lia|].
  destruct (Hcall "m1") as (Hspawn & Hdone & _); [done|].
  by split.
Defined.

(** The session spawned into [ToyScreen.store] is found at the fourth read,
    after three waits. *)
Example polling_finds_the_session :
  polling 20 "s-2" 0 ToyScreen.store 0
  = (concat (replicate 3 [GetState; SetTimeout 100%Z]) ++
     [GetState;
      ConsoleLog "📱 Navigating to session:" (Some (LogString "s-2"));
      RouterReplace "/session/s-2"], true).
Proof. reflexivity. Qed.

(** The recent paths of machine "m1" in [ToyScreen.sessions]. *)
Example recentPaths_of_m1 :
  recentPaths (machineSessions (Some ToyScreen.sessions) (Some "m1"))
  = ["/home/u/notes"; "/srv/web"].
Proof. vm_compute. reflexivity. Qed.

(** A message naming both causes is shown as a timeout. *)
Example timeout_wins :
  errorMessage (ErrorInstance "timeout: Socket not connected")
  = "Session startup timed out. The machine may be slow or the daemon may not be responding.".
Proof. reflexivity. Qed.

End Witnesses.
End MachineDetailScreenSpec.
